(** * async_tio: the request/response protocol layer of [tio.py]

    A shallow embedding of [Tio._format_payload] and [Tio.execute]
    (src/async_tio/tio.py) and of the Python primitives they rest on:
    [str] as a list of code points, [bytes] as a list of octets, the
    strict UTF-8 codec, [str(int)], [str.join], [in] on strings and lists,
    slicing, and the fragment of [re] that the error pattern uses. *)

From Stdlib Require Import String Ascii Decimal DecimalN.
From Stdlib Require Import NArith ZArith Bool List Lia.
Import ListNotations.

Set Implicit Arguments.

Local Open Scope N_scope.

(* ================================================================== *)
(** * Python values: [str], [bytes] and the built-ins used by tio.py   *)
(* ================================================================== *)

Module Py.

(** A Python [str] is a sequence of code points; nothing in the type
    keeps lone surrogates out, exactly as in Python. *)
Definition codepoint := N.
Definition str := list codepoint.

(** A Python [bytes] object: a sequence of octets. *)
Definition octet := N.
Definition bytes := list octet.

(** Source literals: the code points of an ASCII literal of the program. *)
Definition lit (s : string) : str :=
  map N_of_ascii (list_ascii_of_string s).

(** The one-character string ['\x00'] and the code point of ['\n']. *)
Definition NUL : str := [0].
Definition LF : codepoint := 10.

(** [a == b] on strings. *)
Fixpoint str_eqb (a b : str) : bool :=
  match a, b with
  | [], [] => true
  | x :: a', y :: b' => (x =? y) && str_eqb a' b'
  | _, _ => false
  end.

(** [x in l] for a list [l] of strings. *)
Definition list_contains (x : str) (l : list str) : bool :=
  existsb (str_eqb x) l.

(** [s.startswith(p)]. *)
Fixpoint startswith (p s : str) : bool :=
  match p, s with
  | [], _ => true
  | x :: p', y :: s' => (x =? y) && startswith p' s'
  | _ :: _, [] => false
  end.

(** [needle in hay] for two strings: substring search. *)
Fixpoint str_contains (needle hay : str) : bool :=
  startswith needle hay ||
  match hay with
  | [] => false
  | _ :: hay' => str_contains needle hay'
  end.

(** [sep.join(l)]. *)
Fixpoint join (sep : str) (l : list str) : str :=
  match l with
  | [] => []
  | [x] => x
  | x :: l' => x ++ sep ++ join sep l'
  end.

(** ** [str(n)] for a non-negative [int] *)

Fixpoint digits_of_uint (u : Decimal.uint) : str :=
  match u with
  | Nil => []
  | D0 u => 48 :: digits_of_uint u
  | D1 u => 49 :: digits_of_uint u
  | D2 u => 50 :: digits_of_uint u
  | D3 u => 51 :: digits_of_uint u
  | D4 u => 52 :: digits_of_uint u
  | D5 u => 53 :: digits_of_uint u
  | D6 u => 54 :: digits_of_uint u
  | D7 u => 55 :: digits_of_uint u
  | D8 u => 56 :: digits_of_uint u
  | D9 u => 57 :: digits_of_uint u
  end.

Definition str_of_N (n : N) : str := digits_of_uint (N.to_uint n).

(** [str(len(x))]. *)
Definition str_of_len {A} (l : list A) : str := str_of_N (N.of_nat (length l)).

(** [str(z)] for any [int]. *)
Definition str_of_int (z : Z) : str :=
  match z with
  | Zneg p => lit "-" ++ str_of_N (Npos p)
  | _ => str_of_N (Z.to_N z)
  end.

(** ** The strict UTF-8 codec: [bytes(s, encoding='utf-8')] and
       [b.decode('utf-8')] *)

Definition is_surrogate (c : codepoint) : bool :=
  (0xD800 <=? c) && (c <? 0xE000).

(** One code point; [None] is [UnicodeEncodeError] (a lone surrogate). *)
Definition utf8_encode_char (c : codepoint) : option bytes :=
  if c <? 0x80 then Some [c]
  else if c <? 0x800 then Some [0xC0 + c / 64; 0x80 + c mod 64]
  else if c <? 0x10000 then
    if is_surrogate c then None
    else Some [0xE0 + c / 4096; 0x80 + (c / 64) mod 64; 0x80 + c mod 64]
  else if c <? 0x110000 then
    Some [0xF0 + c / 262144; 0x80 + (c / 4096) mod 64;
          0x80 + (c / 64) mod 64; 0x80 + c mod 64]
  else None.

Fixpoint utf8_encode (s : str) : option bytes :=
  match s with
  | [] => Some []
  | c :: s' =>
      match utf8_encode_char c, utf8_encode s' with
      | Some e, Some r => Some (e ++ r)
      | _, _ => None
      end
  end.

Definition is_cont (b : octet) : bool := (0x80 <=? b) && (b <? 0xC0).

(** [None] is [UnicodeDecodeError]: a stray or missing continuation byte,
    an overlong form, an encoded surrogate or a value past U+10FFFF. *)
Fixpoint utf8_decode (bs : bytes) : option str :=
  match bs with
  | [] => Some []
  | b0 :: r0 =>
      if b0 <? 0x80 then option_map (cons b0) (utf8_decode r0)
      else if b0 <? 0xC2 then None
      else if b0 <? 0xE0 then
        match r0 with
        | b1 :: r1 =>
            if is_cont b1
            then option_map (cons ((b0 - 0xC0) * 64 + (b1 - 0x80)))
                            (utf8_decode r1)
            else None
        | _ => None
        end
      else if b0 <? 0xF0 then
        match r0 with
        | b1 :: b2 :: r2 =>
            let c := (b0 - 0xE0) * 4096 + (b1 - 0x80) * 64 + (b2 - 0x80) in
            if is_cont b1 && is_cont b2 && (0x800 <=? c)
               && negb (is_surrogate c)
            then option_map (cons c) (utf8_decode r2)
            else None
        | _ => None
        end
      else if b0 <? 0xF5 then
        match r0 with
        | b1 :: b2 :: b3 :: r3 =>
            let c := (b0 - 0xF0) * 262144 + (b1 - 0x80) * 4096
                     + (b2 - 0x80) * 64 + (b3 - 0x80) in
            if is_cont b1 && is_cont b2 && is_cont b3
               && (0x10000 <=? c) && (c <? 0x110000)
            then option_map (cons c) (utf8_decode r3)
            else None
        | _ => None
        end
      else None
  end.

(** ** Slicing: [l[start:]] and [l[a:-b]] for non-negative [a], [b] *)

Definition slice_from {A} (start : nat) (l : list A) : list A :=
  skipn start l.

(** [l[a:-b]] with [b > 0]: the stop index is [len(l) - b], clamped at 0;
    the slice is empty when the start is not before the stop. *)
Definition slice_between {A} (a b : nat) (l : list A) : list A :=
  skipn a (firstn (length l - b)%nat l).

End Py.
Import Py.

(* ================================================================== *)
(** * The fragment of [re] used by [execute]                           *)
(* ================================================================== *)

Module Re.

Inductive regex : Type :=
| Void
| Eps
| Chr (c : codepoint)
| Dot
| Cat (a b : regex)
| Alt (a b : regex)
| Star (a : regex).

(** [a?] and [a+]. *)
Definition Opt (a : regex) : regex := Alt a Eps.
Definition Plus (a : regex) : regex := Cat a (Star a).

Definition seq (l : list regex) : regex := fold_right Cat Eps l.

(** Pattern syntax: ordinary characters, [.], and the postfix operators
    [?] and [+]; the atoms read so far are kept last-first.  [None] is
    [re.error] (nothing to repeat). *)
Fixpoint atoms (p : str) (acc : list regex) : option (list regex) :=
  match p with
  | [] => Some acc
  | c :: p' =>
      if c =? 63 (* ? *) then
        match acc with
        | a :: acc' => atoms p' (Opt a :: acc')
        | [] => None
        end
      else if c =? 43 (* + *) then
        match acc with
        | a :: acc' => atoms p' (Plus a :: acc')
        | [] => None
        end
      else if c =? 46 (* . *) then atoms p' (Dot :: acc)
      else atoms p' (Chr c :: acc)
  end.

Definition compile (p : str) : option regex :=
  option_map (fun l => seq (rev l)) (atoms p []).

(** The language of a pattern; [Dot] is any character but a newline. *)
Inductive matches : regex -> str -> Prop :=
| MEps : matches Eps []
| MChr c : matches (Chr c) [c]
| MDot c : c <> LF -> matches Dot [c]
| MCat a b s t : matches a s -> matches b t -> matches (Cat a b) (s ++ t)
| MAltL a b s : matches a s -> matches (Alt a b) s
| MAltR a b s : matches b s -> matches (Alt a b) s
| MStarNil a : matches (Star a) []
| MStarCons a s t :
    matches a s -> matches (Star a) t -> matches (Star a) (s ++ t).

Fixpoint nullable (r : regex) : bool :=
  match r with
  | Void => false
  | Eps => true
  | Chr _ => false
  | Dot => false
  | Cat a b => nullable a && nullable b
  | Alt a b => nullable a || nullable b
  | Star _ => true
  end.

Fixpoint deriv (c : codepoint) (r : regex) : regex :=
  match r with
  | Void => Void
  | Eps => Void
  | Chr d => if c =? d then Eps else Void
  | Dot => if c =? LF then Void else Eps
  | Cat a b =>
      if nullable a then Alt (Cat (deriv c a) b) (deriv c b)
      else Cat (deriv c a) b
  | Alt a b => Alt (deriv c a) (deriv c b)
  | Star a => Cat (deriv c a) (Star a)
  end.

(** [re.match(r, s) is not None]: some prefix of [s] is matched. *)
Fixpoint match_prefix (r : regex) (s : str) : bool :=
  nullable r ||
  match s with
  | [] => false
  | c :: s' => match_prefix (deriv c r) s'
  end.

(** [re.search(r, s) is not None]: a match starts at some position. *)
Fixpoint search (r : regex) (s : str) : bool :=
  match_prefix r s ||
  match s with
  | [] => false
  | _ :: s' => search r s'
  end.

(** Characters that every matched string holds. *)
Fixpoint needs (c : codepoint) (r : regex) : bool :=
  match r with
  | Void => true
  | Eps => false
  | Chr d => c =? d
  | Dot => false
  | Cat a b => needs c a || needs c b
  | Alt a b => needs c a && needs c b
  | Star _ => false
  end.

End Re.

(* ================================================================== *)
(** * A reader for field records                                       *)
(* ================================================================== *)

(** The repository only writes records; the service reads them.  The
    reader below follows the wire format of the specification, section 6:
    [F<name>\x00<byteLength>\x00<text>\x00] and
    [V<name>\x00<count>\x00<elem0>\x00...\x00]. *)

Module Wire.

(** The bytes before the first NUL, and the bytes after it. *)
Fixpoint until_nul (bs : bytes) : option (bytes * bytes) :=
  match bs with
  | [] => None
  | b :: r =>
      if b =? 0 then Some ([], r)
      else match until_nul r with
           | Some (f, r') => Some (b :: f, r')
           | None => None
           end
  end.

Fixpoint uint_of_digits (bs : bytes) : option Decimal.uint :=
  match bs with
  | [] => Some Nil
  | b :: r =>
      match uint_of_digits r with
      | None => None
      | Some u =>
          match b with
          | 48 => Some (D0 u) | 49 => Some (D1 u) | 50 => Some (D2 u)
          | 51 => Some (D3 u) | 52 => Some (D4 u) | 53 => Some (D5 u)
          | 54 => Some (D6 u) | 55 => Some (D7 u) | 56 => Some (D8 u)
          | 57 => Some (D9 u)
          | _ => None
          end
      end
  end.

(** A non-empty run of ASCII digits, read as a number. *)
Definition parse_decimal (bs : bytes) : option N :=
  match bs with
  | [] => None
  | _ => option_map N.of_uint (uint_of_digits bs)
  end.

(** [n] NUL-terminated elements. *)
Fixpoint read_elems (n : nat) (bs : bytes) : option (list bytes * bytes) :=
  match n with
  | O => Some ([], bs)
  | S n' =>
      match until_nul bs with
      | None => None
      | Some (e, r) =>
          match read_elems n' r with
          | Some (es, r') => Some (e :: es, r')
          | None => None
          end
      end
  end.

Fixpoint decode_all (l : list bytes) : option (list str) :=
  match l with
  | [] => Some []
  | b :: l' =>
      match utf8_decode b, decode_all l' with
      | Some s, Some r => Some (s :: r)
      | _, _ => None
      end
  end.

(** A scalar record: name, declared byte length, text, bytes left over. *)
Definition spec_decode_scalar (bs : bytes)
  : option (str * N * str * bytes) :=
  match bs with
  | 70 (* F *) :: r0 =>
      match until_nul r0 with
      | None => None
      | Some (nameb, r1) =>
          match until_nul r1 with
          | None => None
          | Some (lenb, r2) =>
              match parse_decimal lenb with
              | None => None
              | Some n =>
                  let k := N.to_nat n in
                  let textb := firstn k r2 in
                  match skipn k r2 with
                  | 0 :: rest =>
                      if (length textb =? k)%nat then
                        match utf8_decode nameb, utf8_decode textb with
                        | Some name, Some text => Some (name, n, text, rest)
                        | _, _ => None
                        end
                      else None
                  | _ => None
                  end
              end
          end
      end
  | _ => None
  end.

(** A sequence record: name, declared count, elements, bytes left over. *)
Definition spec_decode_vector (bs : bytes)
  : option (str * N * list str * bytes) :=
  match bs with
  | 86 (* V *) :: r0 =>
      match until_nul r0 with
      | None => None
      | Some (nameb, r1) =>
          match until_nul r1 with
          | None => None
          | Some (cntb, r2) =>
              match parse_decimal cntb with
              | None => None
              | Some n =>
                  match read_elems (N.to_nat n) r2 with
                  | None => None
                  | Some (es, rest) =>
                      match utf8_decode nameb, decode_all es with
                      | Some name, Some elems => Some (name, n, elems, rest)
                      | _, _ => None
                      end
                  end
              end
          end
      end
  | _ => None
  end.

End Wire.

(* ================================================================== *)
(** * The client: [class Tio]                                          *)
(* ================================================================== *)

Module TioClient.

(** The values [_format_payload] is called with: [None], a [str] or a
    [list] of [str]. *)
Inductive obj : Type :=
| ObjNone
| ObjStr (s : str)
| ObjList (l : list str).

(** Truth value of an object: [None], [''] and [[]] are false. *)
Definition truthy (o : obj) : bool :=
  match o with
  | ObjNone => false
  | ObjStr [] => false
  | ObjList [] => false
  | _ => true
  end.

Definition of_optional_str (o : option str) : obj :=
  match o with Some s => ObjStr s | None => ObjNone end.

Definition of_optional_list (o : option (list str)) : obj :=
  match o with Some l => ObjList l | None => ObjNone end.

(** What the code reads of an aiohttp response: [r.ok], [r.status],
    [r.reason] and the body that [r.read()] returns. *)
Record ClientResponse : Type := {
  ok : bool;
  status : Z;
  reason : str;
  body : bytes
}.

(** The session together with the service behind it: the responses the
    service will give to the next requests, and the requests posted so
    far (url and body), oldest first. *)
Record ClientSession : Type := {
  pending : list ClientResponse;
  posted : list (str * bytes)
}.

(** Modelled from the spec: [TioResponse] of [async_tio/response.py],
    which is not among the sources.  It holds the decoded response text
    and the resolved language identifier; sections are extracted later,
    on demand. *)
Record TioResponse : Type := {
  response_text : str;
  response_language : str
}.

(** Exceptions.  Modelled from the spec: [ApiError] and
    [LanguageNotFound] of [async_tio/exceptions.py], which is not among
    the sources; each carries a message.  The others are Python's own,
    and [ClientError] is aiohttp's for a request that gets no response. *)
Inductive exn : Type :=
| ApiError (msg : str)
| LanguageNotFound (msg : str)
| UnicodeEncodeError
| UnicodeDecodeError
| ReError
| ClientError.

(** Computations on the session that may raise. *)
Definition M (A : Type) : Type :=
  ClientSession -> (exn + A) * ClientSession.

Definition ret {A} (a : A) : M A := fun s => (inr a, s).

Definition raise {A} (e : exn) : M A := fun s => (inl e, s).

Definition bind {A B} (m : M A) (k : A -> M B) : M B :=
  fun s =>
    match m s with
    | (inl e, s') => (inl e, s')
    | (inr a, s') => k a s'
    end.

Notation "x <- m ;; k" := (bind m (fun x => k))
  (at level 61, m at next level, right associativity).

(** [session.post(url, data=data)]: the request is recorded and the
    service's next response comes back. *)
Definition post (url : str) (data : bytes) : M ClientResponse :=
  fun s =>
    let log := posted s ++ [(url, data)] in
    match pending s with
    | [] => (inl ClientError, {| pending := []; posted := log |})
    | r :: rest => (inr r, {| pending := rest; posted := log |})
    end.

(** The attributes of a [Tio] object that [execute] reads. *)
Record Tio : Type := {
  API_URL : str;
  languages : list str
}.

(** [__init__]: the catalog starts empty. *)
Definition Tio_init : Tio :=
  {| API_URL := lit "https://tio.run/cgi-bin/run/api/"; languages := [] |}.

(** ** [_format_payload] (lines 68-78) *)
Definition _format_payload (name : str) (o : obj) : option bytes :=
  if negb (truthy o) then Some []
  else
    match o with
    | ObjList l =>
        let content := (lit "V" ++ name) :: str_of_len l :: l in
        utf8_encode (join NUL content ++ NUL)
    | ObjStr s =>
        match utf8_encode s with
        | None => None
        | Some b =>
            utf8_encode
              (lit "F" ++ name ++ NUL ++ str_of_len b ++ NUL ++ s ++ NUL)
        end
    | ObjNone => Some []
    end.

(** ** Dictionaries: insertion-ordered, one entry per key *)
Definition dict : Type := list (str * obj).

Fixpoint dict_set (d : dict) (k : str) (v : obj) : dict :=
  match d with
  | [] => [(k, v)]
  | (k', v') :: d' =>
      if str_eqb k k' then (k', v) :: d' else (k', v') :: dict_set d' k v
  end.

Definition dict_literal (items : list (str * obj)) : dict :=
  fold_left (fun d kv => dict_set d (fst kv) (snd kv)) items [].

Definition keys (d : dict) : list str := map fst d.
Definition values (d : dict) : list obj := map snd d.

(** [map(f, xs, ys)]. *)
Fixpoint map2 {A B C} (f : A -> B -> C) (xs : list A) (ys : list B)
  : list C :=
  match xs, ys with
  | x :: xs', y :: ys' => f x y :: map2 f xs' ys'
  | _, _ => []
  end.

(** Running the items of a lazy [map]: the first failure is the result. *)
Fixpoint collect {A} (l : list (option A)) : option (list A) :=
  match l with
  | [] => Some []
  | None :: _ => None
  | Some a :: l' => option_map (cons a) (collect l')
  end.

(** ** [execute], lines 89-92: the language actually requested *)
Definition resolve_language (self : Tio) (language : str) : str :=
  if negb (list_contains language (languages self)) then
    let match_ := filter (str_contains language) (languages self) in
    match match_ with
    | m :: _ => m
    | [] => language
    end
  else language.

(** ** [execute], lines 94-101: the [data] dictionary *)
Definition data (language code : str) (inputs : option str)
  (compiler_flags Cl_options arguments : option (list str)) : dict :=
  dict_literal
    [ (lit "lang", ObjList [language]);
      (lit ".code.tio", ObjStr code);
      (lit ".input.tio", of_optional_str inputs);
      (lit "TIO_CFLAGS", of_optional_list compiler_flags);
      (lit "TIO_OPTIONS", of_optional_list Cl_options);
      (lit "args", of_optional_list arguments) ].

(** ** [execute], lines 103-105: the payload [bytes_] *)
Definition bytes_ (d : dict) : option bytes :=
  option_map (fun parts => concat parts ++ [82 (* R *)])
             (collect (map2 _format_payload (keys d) (values d))).

(** The pattern of line 115, as written in the source. *)
Definition not_found_pattern : str :=
  lit "The language ?'.+' ?could not be found on the server.".

Section Execute.

(** [zlib.compress(data, level)]. *)
Variable compress : bytes -> Z -> bytes.

(** ** [execute], line 107: the body that is posted *)
Definition post_body (payload : bytes) : bytes :=
  slice_between 2 4 (compress payload 9).

(** ** [execute] (lines 80-120) *)
Definition execute (self : Tio) (code : str) (language : str)
  (inputs : option str)
  (compiler_flags Cl_options arguments : option (list str))
  : M TioResponse :=
  let language := resolve_language self language in
  let data := data language code inputs compiler_flags Cl_options arguments in
  match bytes_ data with
  | None => raise UnicodeEncodeError
  | Some bytes_ =>
      let data := post_body bytes_ in
      r <- post (API_URL self) data ;;
      if ok r then
        match utf8_decode (body r) with
        | None => raise UnicodeDecodeError
        | Some data =>
            match Re.compile not_found_pattern with
            | None => raise ReError
            | Some pat =>
                if Re.search pat data
                then raise (LanguageNotFound (slice_from 16 data))
                else ret {| response_text := data;
                            response_language := language |}
            end
        end
      else
        raise (ApiError (lit "Error " ++ str_of_int (status r)
                         ++ lit ", " ++ reason r))
  end.

End Execute.

End TioClient.
Import TioClient.

(* ================================================================== *)
(** * Vocabulary of the statements                                     *)
(* ================================================================== *)

Module Spec.

(** The four shapes of an encoded code point. *)
Inductive encoded (c : N) : bytes -> Prop :=
| Enc1 : c < 0x80 -> encoded c [c]
| Enc2 : 0x80 <= c < 0x800 ->
         encoded c [0xC0 + c / 64; 0x80 + c mod 64]
| Enc3 : 0x800 <= c < 0x10000 -> ~ (0xD800 <= c < 0xE000) ->
         encoded c [0xE0 + c / 4096; 0x80 + (c / 64) mod 64; 0x80 + c mod 64]
| Enc4 : 0x10000 <= c < 0x110000 ->
         encoded c [0xF0 + c / 262144; 0x80 + (c / 4096) mod 64;
                    0x80 + (c / 64) mod 64; 0x80 + c mod 64].

(** [needle] occurs in [hay]. *)
Definition infix (needle hay : str) : Prop :=
  exists pre suf, hay = pre ++ needle ++ suf.

(** Byte layout of a scalar record, from the encoded name and text. *)
Definition scalar_record (nameb textb : bytes) : bytes :=
  [70] ++ nameb ++ [0] ++ str_of_len textb ++ [0] ++ textb ++ [0].

(** Byte layout of a sequence record, from the encoded name and
    elements. *)
Definition vector_record (nameb : bytes) (elems : list bytes) : bytes :=
  [86] ++ nameb ++ [0] ++ str_of_len elems ++ [0]
  ++ concat (map (fun e => e ++ [0]) elems).

(** Language resolution as the specification words it, section 4.4:
    exact member; else the first
    catalog entry holding the request as a substring; else the request
    itself. *)
Inductive resolves (catalog : list str) (requested : str) : str -> Prop :=
| ResExact :
    In requested catalog -> resolves catalog requested requested
| ResFirst before m after :
    ~ In requested catalog ->
    catalog = before ++ m :: after ->
    Forall (fun l => ~ infix requested l) before ->
    infix requested m ->
    resolves catalog requested m
| ResPass :
    ~ In requested catalog ->
    Forall (fun l => ~ infix requested l) catalog ->
    resolves catalog requested requested.

(** The service's message for an unknown language, with the text put
    before and after the quoted name left open. *)
Definition not_found_message (sp1 name sp2 : str) (last : codepoint) : str :=
  lit "The language" ++ sp1 ++ lit "'" ++ name ++ lit "'" ++ sp2
  ++ lit "could not be found on the server" ++ [last].

(** The message as the specification quotes it. *)
Definition quoted_message (name : str) : str :=
  not_found_message (lit " ") name (lit " ") 46.

(** The same message with the quote characters left out. *)
Definition unquoted_message (name : str) : str :=
  lit "The language " ++ name ++ lit " could not be found on the server.".

(** The pattern of line 115, atom by atom. *)
Definition not_found_atoms : list Re.regex :=
  map Re.Chr (lit "The language")
  ++ [Re.Opt (Re.Chr 32); Re.Chr 39; Re.Plus Re.Dot; Re.Chr 39;
      Re.Opt (Re.Chr 32)]
  ++ map Re.Chr (lit "could not be found on the server")
  ++ [Re.Dot].

(** Some part of [text] is in the language of the pattern of line 115. *)
Definition text_matches (text : str) : Prop :=
  exists pat pre mid suf,
    Re.compile not_found_pattern = Some pat /\
    text = pre ++ mid ++ suf /\ Re.matches pat mid.

(** The text of [ApiError]: [f"Error {status}, {reason}"]. *)
Definition api_error_text (status : Z) (reason : str) : str :=
  lit "Error " ++ str_of_int status ++ lit ", " ++ reason.

(** ** A compressor to run the examples with

    Adler-32 and a zlib container (RFC 1950) around one stored deflate
    block (RFC 1951), for payloads under 64 KiB: two header bytes, the
    block, four checksum bytes. *)
Definition adler32 (bs : bytes) : N :=
  let '(a, b) :=
    fold_left (fun '(a, b) x =>
                 let a' := (a + x) mod 65521 in (a', (b + a') mod 65521))
              bs (1, 0) in
  b * 65536 + a.

Definition stored_compress (bs : bytes) (level : Z) : bytes :=
  let n := N.of_nat (length bs) in
  let sum := adler32 bs in
  [0x78; 0xDA]
  ++ ([1; n mod 256; n / 256; 255 - n mod 256; 255 - n / 256] ++ bs)
  ++ [sum / 16777216; (sum / 65536) mod 256; (sum / 256) mod 256;
      sum mod 256].

End Spec.

(* ================================================================== *)
(** * A reader for whole payloads                                      *)
(* ================================================================== *)

(** The payload is a run of field records closed by ['R'].  The reader
    takes the records one by one with the readers of [Wire]; like them it
    follows the wire format and has no counterpart in the repository. *)

Module Payload.

Inductive field : Type :=
| Scalar (name text : str)
| Vector (name : str) (elems : list str).

(** At most [fuel] records are read. *)
Fixpoint read_fields (fuel : nat) (bs : bytes) : option (list field) :=
  match fuel with
  | O => None
  | S fuel' =>
      match bs with
      | [] => None
      | b :: r =>
          if b =? 82 (* R *) then
            match r with
            | [] => Some []
            | _ :: _ => None
            end
          else if b =? 70 (* F *) then
            match Wire.spec_decode_scalar bs with
            | Some (name, _, text, rest) =>
                option_map (cons (Scalar name text)) (read_fields fuel' rest)
            | None => None
            end
          else if b =? 86 (* V *) then
            match Wire.spec_decode_vector bs with
            | Some (name, _, elems, rest) =>
                option_map (cons (Vector name elems)) (read_fields fuel' rest)
            | None => None
            end
          else None
      end
  end.

(** The fields of a dictionary that [_format_payload] writes: the
    non-empty strings and the non-empty lists, in order. *)
Definition written (kv : str * obj) : list field :=
  match snd kv with
  | ObjStr (c :: s) => [Scalar (fst kv) (c :: s)]
  | ObjList (x :: l) => [Vector (fst kv) (x :: l)]
  | _ => []
  end.

Definition present (d : dict) : list field := flat_map written d.

(** The text of the scalar field [name], [''] when there is none. *)
Fixpoint scalar_of (name : str) (fs : list field) : str :=
  match fs with
  | [] => []
  | Scalar n t :: fs' => if str_eqb n name then t else scalar_of name fs'
  | Vector _ _ :: fs' => scalar_of name fs'
  end.

(** The elements of the sequence field [name], [[]] when there is none. *)
Fixpoint vector_of (name : str) (fs : list field) : list str :=
  match fs with
  | [] => []
  | Vector n l :: fs' => if str_eqb n name then l else vector_of name fs'
  | Scalar _ _ :: fs' => vector_of name fs'
  end.

(** An optional argument of [execute] up to what [if not obj] tells
    apart: [None] and the empty value are one. *)
Definition text_of (o : option str) : str :=
  match o with Some s => s | None => [] end.

Definition list_of (o : option (list str)) : list str :=
  match o with Some l => l | None => [] end.

(** No element of the list holds a NUL. *)
Definition nul_free (l : list str) : Prop :=
  Forall (fun e => ~ In 0 e) l.

(** An entry whose record can be told from what follows it: no NUL in
    the name nor, for a list, in its elements. *)
Definition readable (kv : str * obj) : Prop :=
  ~ In 0 (fst kv) /\
  match snd kv with
  | ObjList l => nul_free l
  | _ => True
  end.

End Payload.

(* ================================================================== *)
(** * Construction, initialization and closing of a [Tio] object       *)
(* ================================================================== *)

Module Lifecycle.

(** aiohttp sessions are told apart by the order of their creation. *)
Definition session_id : Type := nat.

(** What [_initialize] reads of the response to its GET: [r.ok] and the
    keys of the object that [r.json()] returns, in order; [None] when
    [r.json()] raises. *)
Record LanguagesResponse : Type := {
  get_ok : bool;
  json_keys : option (list str)
}.

(** aiohttp, the event loop and the service: the number of sessions
    created, the sessions closed (oldest first), the GET requests sent
    (session and url, oldest first), the responses the service gives to
    the next GET requests, and the number of tasks handed to
    [create_task] that did not run yet. *)
Record Aiohttp : Type := {
  created : nat;
  closed : list session_id;
  fetched : list (session_id * str);
  replies : list LanguagesResponse;
  scheduled : nat
}.

(** The attributes of a [Tio] object. *)
Record TioObject : Type := {
  _store_languages : bool;
  LANGUAGES_URL : str;
  session : option session_id;
  tio : Tio
}.

Inductive exc : Type :=
| AttributeError
| JSONDecodeError
| ClientConnectionError.

(** Methods: they change the object and the world, and may raise. *)
Definition M (A : Type) : Type :=
  TioObject * Aiohttp -> (exc + A) * (TioObject * Aiohttp).

Definition ret {A} (a : A) : M A := fun s => (inr a, s).

Definition raise {A} (e : exc) : M A := fun s => (inl e, s).

Definition bind {A B} (m : M A) (k : A -> M B) : M B :=
  fun s =>
    match m s with
    | (inl e, s') => (inl e, s')
    | (inr a, s') => k a s'
    end.

Notation "m >>= k" := (bind m k) (at level 58, left associativity).

Definition get_self : M TioObject := fun s => (inr (fst s), s).

(** [self.session = sid]. *)
Definition set_session (sid : session_id) : M unit :=
  fun s =>
    let o := fst s in
    (inr tt,
     ({| _store_languages := _store_languages o;
         LANGUAGES_URL := LANGUAGES_URL o;
         session := Some sid;
         tio := tio o |}, snd s)).

(** [self.languages = ks]. *)
Definition set_languages (ks : list str) : M unit :=
  fun s =>
    let o := fst s in
    (inr tt,
     ({| _store_languages := _store_languages o;
         LANGUAGES_URL := LANGUAGES_URL o;
         session := session o;
         tio := {| API_URL := API_URL (tio o); languages := ks |} |},
      snd s)).

(** [ClientSession()]. *)
Definition ClientSession_new : M session_id :=
  fun s =>
    let w := snd s in
    (inr (created w),
     (fst s,
      {| created := S (created w);
         closed := closed w;
         fetched := fetched w;
         replies := replies w;
         scheduled := scheduled w |})).

(** [session.get(url)]: the request is recorded and the next response of
    the service comes back. *)
Definition session_get (sid : session_id) (url : str)
  : M LanguagesResponse :=
  fun s =>
    let w := snd s in
    let log := fetched w ++ [(sid, url)] in
    match replies w with
    | [] =>
        (inl ClientConnectionError,
         (fst s,
          {| created := created w; closed := closed w; fetched := log;
             replies := []; scheduled := scheduled w |}))
    | r :: rest =>
        (inr r,
         (fst s,
          {| created := created w; closed := closed w; fetched := log;
             replies := rest; scheduled := scheduled w |}))
    end.

(** [session.close()]. *)
Definition session_close (sid : session_id) : M unit :=
  fun s =>
    let w := snd s in
    (inr tt,
     (fst s,
      {| created := created w; closed := closed w ++ [sid];
         fetched := fetched w; replies := replies w;
         scheduled := scheduled w |})).

(** ** [_initialize] (lines 59-66) *)
Definition _initialize : M unit :=
  ClientSession_new >>= fun sid =>
  set_session sid >>= fun _ =>
  get_self >>= fun self =>
  if _store_languages self then
    match session self with
    | None => raise AttributeError
    | Some cur =>
        session_get cur (LANGUAGES_URL self) >>= fun r =>
        if get_ok r then
          match json_keys r with
          | None => raise JSONDecodeError
          | Some ks => set_languages ks
          end
        else ret tt
    end
  else ret tt.

(** ** [close] (lines 56-57) *)
Definition close : M unit :=
  get_self >>= fun self =>
  match session self with
  | None => raise AttributeError
  | Some cur => session_close cur
  end.

(** ** [__aenter__] and [__aexit__] (lines 49-54) *)
Definition __aenter__ : M unit := _initialize.

Definition __aexit__ : M unit := close.

(** ** [__init__] (lines 17-47)

    [loop_running] is what [self.loop.is_running()] answers: in a running
    loop the initialization is handed to [create_task] and runs later;
    otherwise [run_until_complete] runs it at once. *)
Definition __init__ (session : option session_id) (loop_running : bool)
  (store_languages : bool) (w : Aiohttp)
  : (exc + unit) * (TioObject * Aiohttp) :=
  let self :=
    {| _store_languages := store_languages;
       LANGUAGES_URL := lit "https://tio.run/languages.json";
       session := session;
       tio := Tio_init |} in
  if loop_running then
    (inr tt,
     (self,
      {| created := created w; closed := closed w; fetched := fetched w;
         replies := replies w; scheduled := S (scheduled w) |}))
  else _initialize (self, w).

(** [async with tio: body]: enter, run the body, leave; the body's
    exception, if any, comes out after [__aexit__] ran. *)
Definition async_with {A} (body : M A) : M A :=
  __aenter__ >>= fun _ =>
  fun s =>
    match body s with
    | (inl e, s') =>
        match __aexit__ s' with
        | (inl e', s'') => (inl e', s'')
        | (inr _, s'') => (inl e, s'')
        end
    | (inr a, s') =>
        match __aexit__ s' with
        | (inl e', s'') => (inl e', s'')
        | (inr _, s'') => (inr a, s'')
        end
    end.

(** ** [execute] on an object that may have no session yet

    Until [_initialize] has run, [self.session] is what the constructor
    was given, [None] by default (lines 37-40).  [execute] resolves the
    language and builds and compresses the payload first (lines 89-107);
    at line 109 [self.session.post] raises [AttributeError] when there is
    no session, and otherwise the call goes on as [TioClient.execute]
    does with that session. *)
Definition execute_held (compress : bytes -> Z -> bytes) (self : Tio)
  (held : option ClientSession) (code language : str)
  (inputs : option str)
  (compiler_flags Cl_options arguments : option (list str))
  : ((exn + exc) + TioResponse) * option ClientSession :=
  match held with
  | Some s =>
      let out := execute compress self code language inputs
                         compiler_flags Cl_options arguments s in
      (match fst out with
       | inl e => inl (inl e)
       | inr res => inr res
       end, Some (snd out))
  | None =>
      match bytes_ (data (resolve_language self language) code inputs
                         compiler_flags Cl_options arguments) with
      | None => (inl (inl UnicodeEncodeError), None)
      | Some _ => (inl (inr AttributeError), None)
      end
  end.

End Lifecycle.

(* ================================================================== *)
(** * Facts about the Python primitives                                *)
(* ================================================================== *)

Module PyFacts.
Import Spec.

(** Quotient and remainder by 64, for the arithmetic of [lia]. *)
Ltac split64 a :=
  pose proof (N.div_mod a 64 ltac:(lia));
  pose proof (N.mod_lt a 64 ltac:(lia));
  pose proof (N.le_0_l (a / 64));
  pose proof (N.le_0_l (a mod 64)).

(** Settles every comparison of the goal whose outcome the context fixes. *)
Ltac settle_cmp :=
  repeat
    (cbv beta iota zeta delta [andb negb is_cont is_surrogate];
     match goal with
     | |- context [N.ltb ?a ?b] =>
         first [ rewrite (proj2 (N.ltb_lt a b)) by lia
               | rewrite (proj2 (N.ltb_ge a b)) by lia ]
     | |- context [N.leb ?a ?b] =>
         first [ rewrite (proj2 (N.leb_le a b)) by lia
               | rewrite (proj2 (N.leb_gt a b)) by lia ]
     end);
  cbv beta iota zeta delta [andb negb].

Lemma utf8_decode_cons b0 r0 :
  utf8_decode (b0 :: r0) =
  if b0 <? 0x80 then option_map (cons b0) (utf8_decode r0)
  else if b0 <? 0xC2 then None
  else if b0 <? 0xE0 then
    match r0 with
    | b1 :: r1 =>
        if is_cont b1
        then option_map (cons ((b0 - 0xC0) * 64 + (b1 - 0x80)))
                        (utf8_decode r1)
        else None
    | _ => None
    end
  else if b0 <? 0xF0 then
    match r0 with
    | b1 :: b2 :: r2 =>
        let c := (b0 - 0xE0) * 4096 + (b1 - 0x80) * 64 + (b2 - 0x80) in
        if is_cont b1 && is_cont b2 && (0x800 <=? c)
           && negb (is_surrogate c)
        then option_map (cons c) (utf8_decode r2)
        else None
    | _ => None
    end
  else if b0 <? 0xF5 then
    match r0 with
    | b1 :: b2 :: b3 :: r3 =>
        let c := (b0 - 0xF0) * 262144 + (b1 - 0x80) * 4096
                 + (b2 - 0x80) * 64 + (b3 - 0x80) in
        if is_cont b1 && is_cont b2 && is_cont b3
           && (0x10000 <=? c) && (c <? 0x110000)
        then option_map (cons c) (utf8_decode r3)
        else None
    | _ => None
    end
  else None.
Proof. reflexivity. Qed.

Lemma utf8_encode_char_encoded c e :
  utf8_encode_char c = Some e -> encoded c e.
Proof.
  unfold utf8_encode_char, is_surrogate.
  destruct (N.ltb_spec c 0x80).
  { intros [= <-]. now constructor. }
  destruct (N.ltb_spec c 0x800).
  { intros [= <-]. constructor. lia. }
  destruct (N.ltb_spec c 0x10000).
  { destruct (N.leb_spec 0xD800 c); destruct (N.ltb_spec c 0xE000);
      cbn [andb]; try discriminate; intros [= <-]; constructor; lia. }
  destruct (N.ltb_spec c 0x110000); try discriminate.
  intros [= <-]. constructor. lia.
Qed.

Lemma encoded_decode (c : N) e (rest : list N) :
  encoded c e ->
  utf8_decode (e ++ rest) = option_map (cons c) (utf8_decode rest).
Proof.
  assert (E1 : c / 4096 = c / 64 / 64)
    by (rewrite N.Div0.div_div; reflexivity).
  assert (E2 : c / 262144 = c / 64 / 64 / 64)
    by (rewrite !N.Div0.div_div; reflexivity).
  split64 c; split64 (c / 64); split64 (c / 64 / 64).
  intros [R | R | R Rs | R]; cbn [app]; rewrite utf8_decode_cons;
    rewrite ?E2, ?E1; clear E1 E2.
  - settle_cmp. reflexivity.
  - settle_cmp. f_equal. f_equal. lia.
  - settle_cmp.
    match goal with
    | |- context [55296 <=? ?x] => replace x with c by lia
    end.
    destruct (N.leb_spec 55296 c); [destruct (N.ltb_spec c 57344)|];
      try reflexivity; lia.
  - settle_cmp. f_equal. f_equal. lia.
Qed.

Lemma utf8_encode_cons c s :
  utf8_encode (c :: s) =
  match utf8_encode_char c, utf8_encode s with
  | Some e, Some r => Some (e ++ r)
  | _, _ => None
  end.
Proof. reflexivity. Qed.

(** Decoding undoes encoding. *)
Lemma utf8_decode_encode s :
  forall bs, utf8_encode s = Some bs -> utf8_decode bs = Some s.
Proof.
  induction s as [|c s IH]; intros bs.
  - intros [= <-]. reflexivity.
  - rewrite utf8_encode_cons.
    destruct (utf8_encode_char c) as [e|] eqn:Ec; try discriminate.
    destruct (utf8_encode s) as [r|]; try discriminate.
    intros [= <-].
    rewrite (encoded_decode r (utf8_encode_char_encoded c Ec)).
    now rewrite (IH r eq_refl).
Qed.

(** Encoding works piece by piece. *)
Lemma utf8_encode_app s t bs bt :
  utf8_encode s = Some bs -> utf8_encode t = Some bt ->
  utf8_encode (s ++ t) = Some (bs ++ bt).
Proof.
  revert bs. induction s as [|c s IH]; intros bs.
  - intros [= <-] Ht. exact Ht.
  - rewrite <- app_comm_cons, !utf8_encode_cons.
    destruct (utf8_encode_char c) as [e|]; try discriminate.
    destruct (utf8_encode s) as [r|]; try discriminate.
    intros [= <-] Ht. rewrite (IH r eq_refl Ht). now rewrite app_assoc.
Qed.

(** Only the code point 0 yields the byte 0. *)
Lemma encoded_no_nul (c : N) e : encoded c e -> c <> 0 -> ~ In 0 e.
Proof.
  split64 c; split64 (c / 64); split64 (c / 4096); split64 (c / 262144).
  intros [R | R | R Rs | R] Hc; cbn [In]; lia.
Qed.

Lemma utf8_encode_no_nul s :
  forall bs, utf8_encode s = Some bs -> ~ In 0 s -> ~ In 0 bs.
Proof.
  induction s as [|c s IH]; intros bs.
  - intros [= <-]. auto.
  - rewrite utf8_encode_cons.
    destruct (utf8_encode_char c) as [e|] eqn:Ec; try discriminate.
    destruct (utf8_encode s) as [r|]; try discriminate.
    intros [= <-] Hn Hin. apply in_app_or in Hin as [Hin | Hin].
    + apply (encoded_no_nul (utf8_encode_char_encoded c Ec)); auto.
      intros ->. apply Hn. now left.
    + apply (IH r eq_refl); auto. intros H. apply Hn. now right.
Qed.

(** Every byte of an encoding is an octet. *)
Lemma utf8_encode_octets s :
  forall bs, utf8_encode s = Some bs -> Forall (fun b => b < 256) bs.
Proof.
  induction s as [|c s IH]; intros bs.
  - intros [= <-]. constructor.
  - rewrite utf8_encode_cons.
    destruct (utf8_encode_char c) as [e|] eqn:Ec; try discriminate.
    destruct (utf8_encode s) as [r|]; try discriminate.
    intros [= <-]. apply Forall_app. split; [|now apply IH].
    pose proof (utf8_encode_char_encoded c Ec) as He.
    unfold codepoint in *.
    split64 c; split64 (c / 64); split64 (c / 64 / 64).
    assert (E1 : c / 4096 = c / 64 / 64)
      by (rewrite N.Div0.div_div; reflexivity).
    assert (E2 : c / 262144 = c / 64 / 64 / 64)
      by (rewrite !N.Div0.div_div; reflexivity).
    destruct He as [R | R | R Rs | R]; rewrite ?E2, ?E1;
      repeat constructor; lia.
Qed.

(** ** Decimal text *)

Lemma utf8_encode_digits u :
  utf8_encode (digits_of_uint u) = Some (digits_of_uint u).
Proof.
  induction u; cbn [digits_of_uint]; try reflexivity;
    rewrite utf8_encode_cons, IHu; reflexivity.
Qed.

Lemma digits_no_nul u : ~ In 0 (digits_of_uint u).
Proof.
  induction u; cbn [digits_of_uint In]; intros H;
    repeat destruct H as [H | H]; try discriminate; auto.
Qed.

Lemma uint_of_digits_digits u :
  Wire.uint_of_digits (digits_of_uint u) = Some u.
Proof.
  induction u; cbn [digits_of_uint Wire.uint_of_digits]; try reflexivity;
    rewrite IHu; reflexivity.
Qed.

Lemma to_uint_not_nil n : N.to_uint n <> Nil.
Proof.
  intros H. pose proof (DecimalN.Unsigned.of_to n) as E.
  rewrite H in E. destruct n; [discriminate H | discriminate E].
Qed.

Lemma str_of_N_not_nil n : str_of_N n <> [].
Proof.
  unfold str_of_N. pose proof (to_uint_not_nil n).
  destruct (N.to_uint n); cbn; congruence.
Qed.

(** Reading the digits of [str(n)] gives [n] back. *)
Lemma parse_decimal_str_of_N n : Wire.parse_decimal (str_of_N n) = Some n.
Proof.
  unfold Wire.parse_decimal. pose proof (str_of_N_not_nil n) as Hn.
  destruct (str_of_N n) eqn:E; [congruence|]. rewrite <- E.
  unfold str_of_N. rewrite uint_of_digits_digits. cbn.
  now rewrite DecimalN.Unsigned.of_to.
Qed.

Lemma utf8_encode_str_of_N n : utf8_encode (str_of_N n) = Some (str_of_N n).
Proof. apply utf8_encode_digits. Qed.

Lemma str_of_N_no_nul n : ~ In 0 (str_of_N n).
Proof. apply digits_no_nul. Qed.

(** ** Reading up to a NUL *)

Lemma until_nul_app f r :
  ~ In 0 f -> Wire.until_nul (f ++ 0 :: r) = Some (f, r).
Proof.
  induction f as [|b f IH]; intros Hn; cbn.
  - reflexivity.
  - destruct (N.eqb_spec b 0) as [->|_].
    + exfalso. apply Hn. now left.
    + rewrite IH; auto. intros H. apply Hn. now right.
Qed.

(** ** Comparison and search on strings *)

Lemma str_eqb_eq a : forall b, str_eqb a b = true <-> a = b.
Proof.
  induction a as [|x a IH]; intros [|y b]; cbn; split;
    try congruence; try discriminate.
  - rewrite andb_true_iff, N.eqb_eq, IH. intros [-> ->]. reflexivity.
  - intros [= -> ->]. rewrite andb_true_iff, N.eqb_eq, IH. auto.
Qed.

Lemma list_contains_In x l : list_contains x l = true <-> In x l.
Proof.
  unfold list_contains. rewrite existsb_exists. split.
  - intros (y & Hy & E). apply str_eqb_eq in E. now subst.
  - intros H. exists x. split; auto. now apply str_eqb_eq.
Qed.

Lemma startswith_prefix p : forall s,
  startswith p s = true <-> exists t, s = p ++ t.
Proof.
  induction p as [|x p IH]; intros s; cbn.
  - split; auto. intros _. now exists s.
  - destruct s as [|y s].
    + split; [discriminate | intros (t & H); discriminate H].
    + rewrite andb_true_iff, N.eqb_eq, IH. split.
      * intros (-> & t & ->). now exists t.
      * intros (t & [= -> ->]). split; auto. now exists t.
Qed.

(** [needle in hay] holds exactly when [hay] is [pre ++ needle ++ suf]. *)
Lemma str_contains_infix needle : forall hay,
  str_contains needle hay = true <->
  exists pre suf, hay = pre ++ needle ++ suf.
Proof.
  induction hay as [|y hay IH]; cbn [str_contains];
    rewrite orb_true_iff, startswith_prefix.
  - split.
    + intros [(t & H) | H]; [|discriminate]. now exists [], t.
    + intros (pre & suf & H). left.
      destruct pre; [now exists suf | discriminate H].
  - rewrite IH. split.
    + intros [(t & H) | (pre & suf & H)].
      * now exists [], t.
      * exists (y :: pre), suf. now rewrite H.
    + intros (pre & suf & H). destruct pre as [|z pre].
      * left. now exists suf.
      * right. injection H as _ H. now exists pre, suf.
Qed.

End PyFacts.

(* ================================================================== *)
(** * Facts about patterns: the matcher decides the language          *)
(* ================================================================== *)

Module ReFacts.
Import Re.

Create HintDb re.
#[local] Hint Constructors matches : re.

Lemma matches_cat_inv a b s :
  matches (Cat a b) s ->
  exists s1 s2, s = s1 ++ s2 /\ matches a s1 /\ matches b s2.
Proof. inversion 1; subst; eauto. Qed.

Lemma matches_alt_inv a b s :
  matches (Alt a b) s -> matches a s \/ matches b s.
Proof. inversion 1; subst; auto. Qed.

Lemma matches_eps_inv s : matches Eps s -> s = [].
Proof. now inversion 1. Qed.

Lemma matches_void_inv s : ~ matches Void s.
Proof. inversion 1. Qed.

Lemma nullable_matches r : nullable r = true <-> matches r [].
Proof.
  split.
  - induction r; cbn; intros H; try discriminate; auto with re.
    + apply andb_true_iff in H as [Ha Hb].
      change (@nil codepoint) with (@nil codepoint ++ []). auto with re.
    + apply orb_true_iff in H as [Ha | Hb]; auto with re.
  - intros H. remember [] as s eqn:E.
    induction H; cbn; try discriminate; auto.
    + apply app_eq_nil in E as [-> ->]. now rewrite IHmatches1, IHmatches2.
    + now rewrite IHmatches.
    + rewrite IHmatches; auto. apply orb_true_r.
Qed.

Lemma deriv_sound c r : forall s,
  matches (deriv c r) s -> matches r (c :: s).
Proof.
  induction r; cbn [deriv]; intros s H.
  - now apply matches_void_inv in H.
  - now apply matches_void_inv in H.
  - destruct (N.eqb_spec c c0) as [->|_].
    + apply matches_eps_inv in H as ->. constructor.
    + now apply matches_void_inv in H.
  - destruct (N.eqb_spec c LF) as [->|Hc].
    + now apply matches_void_inv in H.
    + apply matches_eps_inv in H as ->. now constructor.
  - assert (Hcat : forall u, matches (Cat (deriv c r1) r2) u ->
                             matches (Cat r1 r2) (c :: u)).
    { intros u Hu. apply matches_cat_inv in Hu as (s1 & s2 & -> & H1 & H2).
      rewrite app_comm_cons. auto with re. }
    destruct (nullable r1) eqn:Hn; auto.
    apply matches_alt_inv in H as [H | H]; auto.
    apply nullable_matches in Hn.
    change (c :: s) with ([] ++ c :: s). auto with re.
  - apply matches_alt_inv in H as [H | H]; auto with re.
  - apply matches_cat_inv in H as (s1 & s2 & -> & H1 & H2).
    rewrite app_comm_cons. auto with re.
Qed.

Lemma deriv_complete c r cs :
  matches r cs -> forall s, cs = c :: s -> matches (deriv c r) s.
Proof.
  induction 1 as [ | d | d Hd | a b s1 s2 H1 IH1 H2 IH2
                 | a b s1 H1 IH1 | a b s1 H1 IH1 | a
                 | a s1 s2 H1 IH1 H2 IH2 ];
    intros s E; cbn [deriv].
  - discriminate.
  - injection E as -> <-. rewrite N.eqb_refl. constructor.
  - injection E as -> <-.
    destruct (N.eqb_spec c LF); [contradiction | constructor].
  - destruct s1 as [|x s1].
    + cbn in E. apply nullable_matches in H1. rewrite H1. auto with re.
    + injection E as -> <-.
      destruct (nullable a); auto with re.
  - auto with re.
  - auto with re.
  - discriminate.
  - destruct s1 as [|x s1].
    + cbn in E. apply (IH2 s E).
    + injection E as -> <-. auto with re.
Qed.

Lemma deriv_matches c r s : matches (deriv c r) s <-> matches r (c :: s).
Proof.
  split; [apply deriv_sound | intros H; now apply (deriv_complete H)].
Qed.

(** [match_prefix] finds a match exactly when a prefix is in the
    language. *)
Lemma match_prefix_spec s : forall r,
  match_prefix r s = true <-> exists p t, s = p ++ t /\ matches r p.
Proof.
  induction s as [|c s IH]; intros r; cbn [match_prefix];
    rewrite orb_true_iff, nullable_matches.
  - split.
    + intros [H | H]; [|discriminate]. now exists [], [].
    + intros (p & t & E & H). symmetry in E.
      apply app_eq_nil in E as [-> ->]. now left.
  - rewrite IH. split.
    + intros [H | (p & t & -> & H)].
      * now exists [], (c :: s).
      * exists (c :: p), t. split; auto. now apply deriv_matches.
    + intros (p & t & E & H). destruct p as [|x p]; [now left|].
      injection E as -> ->. right. exists p, t. split; auto.
      now apply deriv_matches.
Qed.

(** [search] finds a match exactly when some substring is in the
    language. *)
Lemma search_spec r : forall s,
  search r s = true <->
  exists pre mid suf, s = pre ++ mid ++ suf /\ matches r mid.
Proof.
  induction s as [|c s IH]; cbn [search];
    rewrite orb_true_iff, match_prefix_spec.
  - split.
    + intros [(p & t & E & H) | H]; [|discriminate]. now exists [], p, t.
    + intros (pre & mid & suf & E & H). left.
      destruct pre; [now exists mid, suf | discriminate E].
  - rewrite IH. split.
    + intros [(p & t & E & H) | (pre & mid & suf & -> & H)].
      * now exists [], p, t.
      * now exists (c :: pre), mid, suf.
    + intros (pre & mid & suf & E & H). destruct pre as [|x pre].
      * left. now exists mid, suf.
      * injection E as -> ->. right. now exists pre, mid, suf.
Qed.

(** A character that the pattern needs occurs in every match. *)
Lemma needs_sound c r s : matches r s -> needs c r = true -> In c s.
Proof.
  induction 1; cbn [needs]; try discriminate.
  - rewrite N.eqb_eq. intros ->. now left.
  - rewrite orb_true_iff, in_app_iff. tauto.
  - rewrite andb_true_iff. tauto.
  - rewrite andb_true_iff. tauto.
Qed.

Lemma search_needs c r s :
  needs c r = true -> ~ In c s -> search r s = false.
Proof.
  intros Hn Hc. destruct (search r s) eqn:E; auto.
  apply search_spec in E as (pre & mid & suf & -> & H).
  exfalso. apply Hc. rewrite !in_app_iff. right. left.
  apply (needs_sound c H Hn).
Qed.

(** ** Sequences of atoms *)

Lemma matches_seq_app l1 l2 s1 s2 :
  matches (seq l1) s1 -> matches (seq l2) s2 ->
  matches (seq (l1 ++ l2)) (s1 ++ s2).
Proof.
  revert s1. induction l1 as [|a l1 IH]; cbn; intros s1 H1 H2.
  - apply matches_eps_inv in H1 as ->. exact H2.
  - apply matches_cat_inv in H1 as (u & v & -> & Hu & Hv).
    rewrite <- app_assoc. auto with re.
Qed.

Lemma matches_seq_one a s : matches a s -> matches (seq [a]) s.
Proof.
  intros H. cbn. rewrite <- (app_nil_r s). auto with re.
Qed.

Lemma matches_literal s : matches (seq (map Chr s)) s.
Proof.
  induction s as [|c s IH]; cbn; [constructor|].
  change (c :: s) with ([c] ++ s). auto with re.
Qed.

Lemma matches_opt_skip a : matches (Opt a) [].
Proof. unfold Opt. auto with re. Qed.

Lemma matches_opt_take a s : matches a s -> matches (Opt a) s.
Proof. unfold Opt. auto with re. Qed.

Lemma matches_star_dot s : ~ In LF s -> matches (Star Dot) s.
Proof.
  induction s as [|c s IH]; intros H; [constructor|].
  change (c :: s) with ([c] ++ s). constructor.
  - constructor. intros ->. apply H. now left.
  - apply IH. intros Hs. apply H. now right.
Qed.

(** [.+] takes any non-empty run of characters with no newline. *)
Lemma matches_plus_dot s : s <> [] -> ~ In LF s -> matches (Plus Dot) s.
Proof.
  destruct s as [|c s]; [congruence|]. intros _ H.
  unfold Plus. change (c :: s) with ([c] ++ s). constructor.
  - constructor. intros ->. apply H. now left.
  - apply matches_star_dot. intros Hs. apply H. now right.
Qed.

End ReFacts.

(* ================================================================== *)
(** * The field encoder, [_format_payload]                             *)
(* ================================================================== *)

Import Spec PyFacts.

Section FieldEncoder.

Variable name : str.
Variable nameb : bytes.
Hypothesis name_encoded : utf8_encode name = Some nameb.

Lemma format_scalar s sb :
  s <> [] -> utf8_encode s = Some sb ->
  _format_payload name (ObjStr s) = Some (scalar_record nameb sb).
Proof.
  intros Hs Es. unfold _format_payload.
  destruct s as [|c s]; [congruence|]. cbn [truthy negb].
  rewrite Es. unfold scalar_record, NUL.
  repeat (apply utf8_encode_app; [first
    [ reflexivity | exact name_encoded | apply utf8_encode_str_of_N ] |]).
  apply utf8_encode_app; [exact Es | reflexivity].
Qed.

Lemma utf8_encode_join_nul l :
  forall es, Forall2 (fun e b => utf8_encode e = Some b) l es ->
  l <> [] ->
  utf8_encode (join NUL l ++ NUL)
  = Some (concat (map (fun e => e ++ [0]) es)).
Proof.
  induction l as [|x l IH]; intros es H Hl; [congruence|].
  inversion H as [|x' b l' es' Hx Hrest]; subst.
  cbn [map concat]. rewrite <- app_assoc.
  destruct l as [|y l].
  - inversion Hrest; subst. cbn [join map concat].
    apply utf8_encode_app; [exact Hx | reflexivity].
  - change (join NUL (x :: y :: l)) with (x ++ NUL ++ join NUL (y :: l)).
    rewrite <- !app_assoc.
    apply utf8_encode_app; [exact Hx|].
    apply (@utf8_encode_app NUL _ [0]); [reflexivity|].
    apply IH; [exact Hrest | discriminate].
Qed.

Lemma format_vector l es :
  l <> [] -> Forall2 (fun e b => utf8_encode e = Some b) l es ->
  _format_payload name (ObjList l) = Some (vector_record nameb es).
Proof.
  intros Hl H. unfold _format_payload.
  assert (Hlen : str_of_len l = str_of_len es).
  { unfold str_of_len. now rewrite (Forall2_length H). }
  destruct l as [|x l]; [congruence|]. cbn [truthy negb].
  unfold vector_record. rewrite <- Hlen.
  set (n := str_of_len (x :: l)).
  change (join NUL ((lit "V" ++ name) :: n :: x :: l))
    with ((lit "V" ++ name) ++ NUL ++ n ++ NUL ++ join NUL (x :: l)).
  rewrite <- !app_assoc.
  apply utf8_encode_app; [reflexivity|].
  apply utf8_encode_app; [exact name_encoded|].
  apply (@utf8_encode_app NUL _ [0]); [reflexivity|].
  apply utf8_encode_app; [apply utf8_encode_str_of_N|].
  apply (@utf8_encode_app NUL _ [0]); [reflexivity|].
  apply utf8_encode_join_nul; [exact H | discriminate].
Qed.

End FieldEncoder.

(** ** Reading a record back *)

Lemma firstn_skipn_exact {A} (x : A) (sb rest : list A) :
  firstn (length sb) (sb ++ x :: rest) = sb /\
  skipn (length sb) (sb ++ x :: rest) = x :: rest.
Proof.
  split.
  - rewrite firstn_app, Nat.sub_diag, firstn_all. cbn. apply app_nil_r.
  - rewrite skipn_app, Nat.sub_diag, skipn_all. reflexivity.
Qed.

Lemma decode_scalar_record name s nameb sb rest :
  ~ In 0 name ->
  utf8_encode name = Some nameb -> utf8_encode s = Some sb ->
  Wire.spec_decode_scalar (scalar_record nameb sb ++ rest)
  = Some (name, N.of_nat (length sb), s, rest).
Proof.
  intros Hn En Es. unfold scalar_record.
  rewrite <- !app_assoc. cbn [app].
  unfold Wire.spec_decode_scalar. cbv beta iota zeta.
  rewrite until_nul_app by (apply (utf8_encode_no_nul name En Hn)).
  rewrite until_nul_app by apply str_of_N_no_nul.
  unfold str_of_len. rewrite parse_decimal_str_of_N, Nat2N.id.
  rewrite (proj2 (firstn_skipn_exact _ sb rest)).
  rewrite !(proj1 (firstn_skipn_exact _ sb rest)).
  rewrite Nat.eqb_refl.
  now rewrite (utf8_decode_encode name En), (utf8_decode_encode s Es).
Qed.

Lemma read_elems_concat es rest :
  Forall (fun e => ~ In 0 e) es ->
  Wire.read_elems (length es) (concat (map (fun e => e ++ [0]) es) ++ rest)
  = Some (es, rest).
Proof.
  induction 1 as [|e es He Hes IH]; [reflexivity|].
  cbn [length map concat Wire.read_elems].
  rewrite <- !app_assoc. cbn [app].
  rewrite until_nul_app by exact He. now rewrite IH.
Qed.

Lemma decode_all_encoded l es :
  Forall2 (fun e b => utf8_encode e = Some b) l es ->
  Wire.decode_all es = Some l.
Proof.
  induction 1 as [|e b l es He Hes IH]; [reflexivity|].
  cbn [Wire.decode_all]. now rewrite (utf8_decode_encode e He), IH.
Qed.

Lemma encoded_elems_no_nul l es :
  Forall2 (fun e b => utf8_encode e = Some b) l es ->
  Forall (fun e => ~ In 0 e) l -> Forall (fun b => ~ In 0 b) es.
Proof.
  induction 1 as [|e b l es He Hes IH]; intros Hl; constructor;
    inversion Hl; subst; eauto using utf8_encode_no_nul.
Qed.

(** A sequence record of NUL-free name and elements reads back as the
    name, the count and the elements, and nothing of it is left over. *)
Lemma decode_vector_record name l nameb es rest :
  ~ In 0 name -> Forall (fun e => ~ In 0 e) l ->
  utf8_encode name = Some nameb ->
  Forall2 (fun e b => utf8_encode e = Some b) l es ->
  Wire.spec_decode_vector (vector_record nameb es ++ rest)
  = Some (name, N.of_nat (length l), l, rest).
Proof.
  intros Hn Hl En Es. unfold vector_record.
  rewrite <- !app_assoc. cbn [app].
  unfold Wire.spec_decode_vector. cbv beta iota.
  rewrite until_nul_app by (apply (utf8_encode_no_nul name En Hn)).
  rewrite until_nul_app by apply str_of_N_no_nul.
  unfold str_of_len. rewrite parse_decimal_str_of_N, Nat2N.id.
  rewrite read_elems_concat by (apply (encoded_elems_no_nul Es Hl)).
  rewrite (utf8_decode_encode name En), (decode_all_encoded Es).
  now rewrite <- (Forall2_length Es).
Qed.

(** ** Fields inside a payload *)

Lemma map2_keys_values (d : dict) :
  map2 _format_payload (keys d) (values d)
  = map (fun kv => _format_payload (fst kv) (snd kv)) d.
Proof.
  induction d as [|[k v] d IH]; [reflexivity|].
  cbn. now rewrite <- IH.
Qed.

Lemma collect_app {A} (l1 l2 : list (option A)) :
  collect (l1 ++ l2) =
  match collect l1, collect l2 with
  | Some a, Some b => Some (a ++ b)
  | _, _ => None
  end.
Proof.
  induction l1 as [|[x|] l1 IH]; cbn.
  - now destruct (collect l2).
  - rewrite IH. destruct (collect l1), (collect l2); reflexivity.
  - reflexivity.
Qed.

(** C1 (as amended): for every field name without a NUL character and
    every non-empty text [s], both encodable as UTF-8, [_format_payload]
    produces exactly ['F' + name], NUL, the decimal byte length of the
    UTF-8 encoding of [s], NUL, [s], NUL; and reading that record (with
    any bytes after it) recovers [name], the length [len(utf8(s))] and
    [s], leaving the bytes after it. *)
Theorem format_payload_scalar_roundtrip (name s : str) (nameb sb rest : bytes) :
  s <> [] -> ~ In 0 name ->
  utf8_encode name = Some nameb -> utf8_encode s = Some sb ->
  _format_payload name (ObjStr s)
  = Some ([70] ++ nameb ++ [0] ++ str_of_N (N.of_nat (length sb)) ++ [0]
          ++ sb ++ [0]) /\
  Wire.spec_decode_scalar
    (([70] ++ nameb ++ [0] ++ str_of_N (N.of_nat (length sb)) ++ [0]
      ++ sb ++ [0]) ++ rest)
  = Some (name, N.of_nat (length sb), s, rest).
Proof.
  intros Hs Hn En Es. split.
  - now apply format_scalar.
  - now apply decode_scalar_record.
Qed.

Lemma format_payload_scalar_roundtrip_witness :
  _format_payload (lit ".code.tio") (ObjStr [233; 33])
  = Some ([70] ++ lit ".code.tio" ++ [0] ++ lit "3" ++ [0]
          ++ [195; 169; 33] ++ [0]) /\
  Wire.spec_decode_scalar
    (([70] ++ lit ".code.tio" ++ [0] ++ lit "3" ++ [0]
      ++ [195; 169; 33] ++ [0]) ++ [82])
  = Some (lit ".code.tio", 3, [233; 33], [82]).
Proof.
  apply (@format_payload_scalar_roundtrip
           (lit ".code.tio") [233; 33] (lit ".code.tio") [195; 169; 33] [82]).
  - discriminate.
  - cbn. lia.
  - reflexivity.
  - reflexivity.
Defined.

(** C1 (as stated) fails for a name that holds a NUL: the field
    ['a\x005\x00x'] with text ['y'] and the field ['a'] with text
    ['x\x001\x00y'] have the same record, so reading it cannot give both
    names back; the reader gives the second. *)
Lemma format_payload_scalar_nul_name_collides :
  let name := [97; 0; 53; 0; 120] in
  let record := [70; 97; 0; 53; 0; 120; 0; 49; 0; 121; 0] in
  _format_payload name (ObjStr [121]) = Some record /\
  _format_payload [97] (ObjStr [120; 0; 49; 0; 121]) = Some record /\
  Wire.spec_decode_scalar record = Some ([97], 5, [120; 0; 49; 0; 121], []) /\
  Wire.spec_decode_scalar record <> Some (name, 1, [121], []).
Proof.
  cbv zeta. repeat split; try reflexivity. discriminate.
Qed.

(** The length field counts bytes, not characters: a two-character text
    of three bytes. *)
Example format_payload_scalar_counts_bytes :
  _format_payload (lit "f") (ObjStr [233; 33])
  = Some (lit "Ff" ++ [0] ++ lit "3" ++ [0] ++ [195; 169; 33] ++ [0])
  /\ length [233; 33] = 2%nat.
Proof. split; reflexivity. Qed.

(** C2 (as amended): for every field name and every non-empty sequence
    [l] of [n] strings, where neither the name nor an element holds a NUL
    character (and all are encodable as UTF-8), [_format_payload]
    produces exactly ['V' + name], NUL, [n] in decimal, NUL, then each
    element of [l] in order followed by a NUL; reading that record (with
    any bytes after it) finds the declared count [n] and exactly the [n]
    elements of [l] after it, leaving the bytes after the record. *)
Theorem format_payload_sequence_record (name : str) (l : list str)
  (nameb : bytes) (es : list bytes) (rest : bytes) :
  l <> [] ->
  ~ In 0 name -> Forall (fun e => ~ In 0 e) l ->
  utf8_encode name = Some nameb ->
  Forall2 (fun e b => utf8_encode e = Some b) l es ->
  _format_payload name (ObjList l)
  = Some ([86] ++ nameb ++ [0] ++ str_of_N (N.of_nat (length l)) ++ [0]
          ++ concat (map (fun b => b ++ [0]) es)) /\
  Wire.spec_decode_vector
    (([86] ++ nameb ++ [0] ++ str_of_N (N.of_nat (length l)) ++ [0]
      ++ concat (map (fun b => b ++ [0]) es)) ++ rest)
  = Some (name, N.of_nat (length l), l, rest).
Proof.
  intros Hl Hn Hf En Es.
  assert (E : [86] ++ nameb ++ [0] ++ str_of_N (N.of_nat (length l)) ++ [0]
              ++ concat (map (fun b => b ++ [0]) es)
              = vector_record nameb es).
  { unfold vector_record, str_of_len. now rewrite (Forall2_length Es). }
  rewrite E. split.
  - apply (@format_vector name nameb En l es Hl Es).
  - now apply decode_vector_record.
Qed.

Lemma format_payload_sequence_record_witness :
  _format_payload (lit "args") (ObjList [lit "-v"; [233]; lit "x"])
  = Some ([86] ++ lit "args" ++ [0] ++ lit "3" ++ [0]
          ++ concat (map (fun b => b ++ [0]) [lit "-v"; [195; 169]; lit "x"]))
  /\
  Wire.spec_decode_vector
    (([86] ++ lit "args" ++ [0] ++ lit "3" ++ [0]
      ++ concat (map (fun b => b ++ [0]) [lit "-v"; [195; 169]; lit "x"]))
     ++ [82])
  = Some (lit "args", 3, [lit "-v"; [233]; lit "x"], [82]).
Proof.
  apply (@format_payload_sequence_record
           (lit "args") [lit "-v"; [233]; lit "x"] (lit "args")
           [lit "-v"; [195; 169]; lit "x"] [82]).
  - discriminate.
  - cbn. lia.
  - repeat constructor; cbn; lia.
  - reflexivity.
  - repeat constructor.
Defined.

(** C2 (as stated) fails when a NUL is written into the record.  The
    field ['a\x002\x00x'] with the one-element list [['y']] is written as
    [Va\x002\x00x\x001\x00y\x00], where the declared count reads 2 and the
    elements after it are ['x'] and ['1'].  The field [args] with the
    one-element list [['a\x00b']] is written with count 1 followed by the
    two NUL-terminated elements ['a'] and ['b']. *)
Lemma format_payload_sequence_nul_miscounts :
  _format_payload [97; 0; 50; 0; 120] (ObjList [[121]])
  = Some [86; 97; 0; 50; 0; 120; 0; 49; 0; 121; 0] /\
  Wire.spec_decode_vector [86; 97; 0; 50; 0; 120; 0; 49; 0; 121; 0]
  = Some ([97], 2, [[120]; [49]], [121; 0]) /\
  length [[121]] = 1%nat /\
  _format_payload (lit "args") (ObjList [[97; 0; 98]])
  = Some (lit "Vargs" ++ [0] ++ lit "1" ++ [0] ++ lit "a" ++ [0]
          ++ lit "b" ++ [0]) /\
  Wire.spec_decode_vector
    (lit "Vargs" ++ [0] ++ lit "1" ++ [0] ++ lit "a" ++ [0]
     ++ lit "b" ++ [0])
  = Some (lit "args", 1, [lit "a"], lit "b" ++ [0]).
Proof. repeat split. Qed.

(** C3: for every field name, an empty string and an empty list encode
    to zero bytes, and such a field leaves no trace in a payload: the
    payload is that of the dictionary without the field. *)
Theorem format_payload_empty_omitted (name : str) :
  _format_payload name (ObjStr []) = Some [] /\
  _format_payload name (ObjList []) = Some [] /\
  forall d1 d2 : dict,
    bytes_ (d1 ++ (name, ObjStr []) :: d2) = bytes_ (d1 ++ d2) /\
    bytes_ (d1 ++ (name, ObjList []) :: d2) = bytes_ (d1 ++ d2).
Proof.
  split; [reflexivity | split; [reflexivity|]].
  assert (H : forall (d1 d2 : dict) v,
             _format_payload name v = Some [] ->
             bytes_ (d1 ++ (name, v) :: d2) = bytes_ (d1 ++ d2)).
  { intros d1 d2 v E. unfold bytes_.
    rewrite !map2_keys_values, !map_app, !collect_app.
    cbn [map collect fst snd]. rewrite E.
    destruct (collect (map _ d1)) as [a|]; [|reflexivity].
    destruct (collect (map _ d2)) as [b|]; [|reflexivity].
    cbn [option_map]. now rewrite !concat_app. }
  intros d1 d2. split; apply H; reflexivity.
Qed.

(* ================================================================== *)
(** * The payload and the request: [execute], lines 94-109             *)
(* ================================================================== *)

Lemma data_items language code inputs compiler_flags Cl_options arguments :
  data language code inputs compiler_flags Cl_options arguments =
  [ (lit "lang", ObjList [language]);
    (lit ".code.tio", ObjStr code);
    (lit ".input.tio", of_optional_str inputs);
    (lit "TIO_CFLAGS", of_optional_list compiler_flags);
    (lit "TIO_OPTIONS", of_optional_list Cl_options);
    (lit "args", of_optional_list arguments) ].
Proof. reflexivity. Qed.

Lemma bytes_six language code inputs compiler_flags Cl_options arguments
      r1 r2 r3 r4 r5 r6 :
  _format_payload (lit "lang") (ObjList [language]) = Some r1 ->
  _format_payload (lit ".code.tio") (ObjStr code) = Some r2 ->
  _format_payload (lit ".input.tio") (of_optional_str inputs) = Some r3 ->
  _format_payload (lit "TIO_CFLAGS") (of_optional_list compiler_flags)
  = Some r4 ->
  _format_payload (lit "TIO_OPTIONS") (of_optional_list Cl_options)
  = Some r5 ->
  _format_payload (lit "args") (of_optional_list arguments) = Some r6 ->
  bytes_ (data language code inputs compiler_flags Cl_options arguments)
  = Some (r1 ++ r2 ++ r3 ++ r4 ++ r5 ++ r6 ++ [82]).
Proof.
  intros H1 H2 H3 H4 H5 H6. rewrite data_items. unfold bytes_.
  rewrite map2_keys_values. cbn [map fst snd].
  rewrite H1, H2, H3, H4, H5, H6. cbn [collect option_map concat].
  now rewrite app_nil_r, <- !app_assoc.
Qed.

Section Request.

Variable compress : bytes -> Z -> bytes.
Variable self : Tio.
Variables (code language : str) (inputs : option str).
Variables compiler_flags Cl_options arguments : option (list str).
Variable payload : bytes.

Hypothesis payload_built :
  bytes_ (data (resolve_language self language) code inputs
               compiler_flags Cl_options arguments) = Some payload.

(** Once the payload is built, exactly one request is posted, whatever
    happens next. *)
Lemma execute_posts_once s :
  posted (snd (execute compress self code language inputs
                       compiler_flags Cl_options arguments s))
  = posted s ++ [(API_URL self, post_body compress payload)].
Proof.
  unfold execute. rewrite payload_built. unfold bind, post.
  destruct (pending s) as [|r rest]; [reflexivity|].
  destruct (ok r); [|reflexivity].
  destruct (utf8_decode (body r)); [|reflexivity].
  destruct (Re.compile not_found_pattern); [|reflexivity].
  destruct (Re.search _ _); reflexivity.
Qed.

(** What [execute] does with the response [r] that the request gets. *)
Lemma execute_on_response s r rest :
  pending s = r :: rest ->
  execute compress self code language inputs
          compiler_flags Cl_options arguments s =
  (if ok r then
     match utf8_decode (body r) with
     | None => raise UnicodeDecodeError
     | Some text =>
         match Re.compile not_found_pattern with
         | None => raise ReError
         | Some pat =>
             if Re.search pat text
             then raise (LanguageNotFound (slice_from 16 text))
             else ret {| response_text := text;
                         response_language :=
                           resolve_language self language |}
         end
     end
   else raise (ApiError (api_error_text (status r) (reason r))))
    {| pending := rest;
       posted := posted s ++ [(API_URL self, post_body compress payload)] |}.
Proof.
  intros Hp. unfold execute. rewrite payload_built.
  unfold bind, post. rewrite Hp. destruct (ok r); reflexivity.
Qed.

End Request.

(** C4: for every call of [execute], the payload is the concatenation of
    the records of the six fields in the order lang, .code.tio,
    .input.tio, TIO_CFLAGS, TIO_OPTIONS, args, with nothing between
    them, followed by the single byte ['R']; and the body posted is
    computed from exactly that payload. *)
Theorem execute_payload_layout
  (compress : bytes -> Z -> bytes) (self : Tio) (code language : str)
  (inputs : option str)
  (compiler_flags Cl_options arguments : option (list str))
  (r1 r2 r3 r4 r5 r6 : bytes) (s : ClientSession) :
  _format_payload (lit "lang") (ObjList [resolve_language self language])
  = Some r1 ->
  _format_payload (lit ".code.tio") (ObjStr code) = Some r2 ->
  _format_payload (lit ".input.tio") (of_optional_str inputs) = Some r3 ->
  _format_payload (lit "TIO_CFLAGS") (of_optional_list compiler_flags)
  = Some r4 ->
  _format_payload (lit "TIO_OPTIONS") (of_optional_list Cl_options)
  = Some r5 ->
  _format_payload (lit "args") (of_optional_list arguments) = Some r6 ->
  bytes_ (data (resolve_language self language) code inputs
               compiler_flags Cl_options arguments)
  = Some (r1 ++ r2 ++ r3 ++ r4 ++ r5 ++ r6 ++ [82]) /\
  posted (snd (execute compress self code language inputs
                       compiler_flags Cl_options arguments s))
  = posted s
    ++ [(API_URL self,
         post_body compress (r1 ++ r2 ++ r3 ++ r4 ++ r5 ++ r6 ++ [82]))].
Proof.
  intros H1 H2 H3 H4 H5 H6.
  pose proof (bytes_six _ _ _ _ _ _ H1 H2 H3 H4 H5 H6) as Hb.
  split; [exact Hb|]. now apply execute_posts_once.
Qed.

Lemma execute_payload_layout_witness :
  bytes_ (data (resolve_language Tio_init (lit "python3")) (lit "print(1)")
               (Some (lit "7")) (Some []) (Some []) (Some [lit "-v"]))
  = Some ((lit "Vlang" ++ [0] ++ lit "1" ++ [0] ++ lit "python3" ++ [0])
          ++ (lit "F.code.tio" ++ [0] ++ lit "8" ++ [0] ++ lit "print(1)"
              ++ [0])
          ++ (lit "F.input.tio" ++ [0] ++ lit "1" ++ [0] ++ lit "7" ++ [0])
          ++ [] ++ []
          ++ (lit "Vargs" ++ [0] ++ lit "1" ++ [0] ++ lit "-v" ++ [0])
          ++ [82]) /\
  posted (snd (execute stored_compress Tio_init (lit "print(1)")
                       (lit "python3") (Some (lit "7")) (Some []) (Some [])
                       (Some [lit "-v"])
                       {| pending := []; posted := [] |}))
  = [] ++ [(API_URL Tio_init,
      post_body stored_compress
        ((lit "Vlang" ++ [0] ++ lit "1" ++ [0] ++ lit "python3" ++ [0])
         ++ (lit "F.code.tio" ++ [0] ++ lit "8" ++ [0] ++ lit "print(1)"
             ++ [0])
         ++ (lit "F.input.tio" ++ [0] ++ lit "1" ++ [0] ++ lit "7" ++ [0])
         ++ [] ++ []
         ++ (lit "Vargs" ++ [0] ++ lit "1" ++ [0] ++ lit "-v" ++ [0])
         ++ [82]))].
Proof.
  apply (@execute_payload_layout stored_compress Tio_init (lit "print(1)")
           (lit "python3") (Some (lit "7")) (Some []) (Some [])
           (Some [lit "-v"])); reflexivity.
Defined.

(** C5: the body of the POST is computed from the payload [p] alone: it
    is [compress(p, 9)[2:-4]], the zlib stream of [p] at level 9 with its
    first two and last four bytes cut off; when that stream is a
    two-byte header, a raw stream and a four-byte trailer, the body is
    the raw stream.  Being a function of [p], it is the same bytes each
    time. *)
Theorem post_body_raw_stream
  (compress : bytes -> Z -> bytes) (self : Tio) (code language : str)
  (inputs : option str)
  (compiler_flags Cl_options arguments : option (list str))
  (p : bytes) (s : ClientSession) :
  bytes_ (data (resolve_language self language) code inputs
               compiler_flags Cl_options arguments) = Some p ->
  posted (snd (execute compress self code language inputs
                       compiler_flags Cl_options arguments s))
  = posted s ++ [(API_URL self, slice_between 2 4 (compress p 9%Z))] /\
  forall hdr raw ftr : bytes,
    compress p 9%Z = hdr ++ raw ++ ftr ->
    length hdr = 2%nat -> length ftr = 4%nat ->
    post_body compress p = raw.
Proof.
  intros Hp. split.
  - now apply execute_posts_once.
  - intros hdr raw ftr E Hh Hf. unfold post_body, slice_between.
    rewrite E, !length_app, Hh, Hf.
    replace (2 + (length raw + 4) - 4)%nat
      with (length hdr + length raw)%nat by lia.
    rewrite app_assoc, firstn_app, firstn_all2 by (rewrite length_app; lia).
    rewrite length_app.
    replace (length hdr + length raw - (length hdr + length raw))%nat
      with 0%nat by lia.
    cbn [firstn]. rewrite app_nil_r.
    rewrite <- Hh, skipn_app, skipn_all, Nat.sub_diag. reflexivity.
Qed.

Lemma post_body_raw_stream_witness :
  posted (snd (execute stored_compress Tio_init (lit "print(1)")
                       (lit "python3") None None None None
                       {| pending := []; posted := [] |}))
  = [] ++ [(API_URL Tio_init,
            slice_between 2 4
              (stored_compress
                 (lit "Vlang" ++ [0] ++ lit "1" ++ [0] ++ lit "python3" ++ [0]
                  ++ lit "F.code.tio" ++ [0] ++ lit "8" ++ [0]
                  ++ lit "print(1)" ++ [0] ++ lit "R") 9%Z))] /\
  post_body stored_compress
    (lit "Vlang" ++ [0] ++ lit "1" ++ [0] ++ lit "python3" ++ [0]
     ++ lit "F.code.tio" ++ [0] ++ lit "8" ++ [0]
     ++ lit "print(1)" ++ [0] ++ lit "R")
  = [1; 39; 0; 216; 255]
    ++ (lit "Vlang" ++ [0] ++ lit "1" ++ [0] ++ lit "python3" ++ [0]
        ++ lit "F.code.tio" ++ [0] ++ lit "8" ++ [0]
        ++ lit "print(1)" ++ [0] ++ lit "R").
Proof.
  destruct (@post_body_raw_stream stored_compress Tio_init (lit "print(1)")
              (lit "python3") None None None None
              (lit "Vlang" ++ [0] ++ lit "1" ++ [0] ++ lit "python3" ++ [0]
               ++ lit "F.code.tio" ++ [0] ++ lit "8" ++ [0]
               ++ lit "print(1)" ++ [0] ++ lit "R")
              {| pending := []; posted := [] |} eq_refl) as [H1 H2].
  split; [exact H1|].
  apply (H2 [120; 218] _
            (skipn 46
               (stored_compress
                  (lit "Vlang" ++ [0] ++ lit "1" ++ [0] ++ lit "python3"
                   ++ [0] ++ lit "F.code.tio" ++ [0] ++ lit "8" ++ [0]
                   ++ lit "print(1)" ++ [0] ++ lit "R") 9%Z)));
    reflexivity.
Defined.

(** The stored stream of a payload, cut as [execute] cuts it. *)
Example post_body_stored :
  post_body stored_compress (lit "VR")
  = [1; 2; 0; 253; 255; 86; 82].
Proof. reflexivity. Qed.

(** ** The decimal text of a status *)

Lemma nzhead_not_D0 d : forall u, Decimal.nzhead d <> D0 u.
Proof. induction d; cbn; auto; discriminate. Qed.

(** [str(n)] has no leading zero, unless it is ["0"]. *)
Lemma str_of_N_canonical n :
  str_of_N n = lit "0" \/ exists c t, str_of_N n = c :: t /\ c <> 48.
Proof.
  unfold str_of_N.
  pose proof (DecimalN.Unsigned.to_of (N.to_uint n)) as H.
  rewrite DecimalN.Unsigned.of_to in H. rewrite H. unfold Decimal.unorm.
  pose proof (nzhead_not_D0 (N.to_uint n)) as Hz.
  destruct (Decimal.nzhead (N.to_uint n)) as [|u|u|u|u|u|u|u|u|u|u];
    try (left; reflexivity);
    try (exfalso; apply (Hz u); reflexivity);
    right; cbn [digits_of_uint]; do 2 eexists; (split; [reflexivity|]);
    discriminate.
Qed.

(** [str(z)] is an optional minus sign and the canonical decimal digits
    of the absolute value. *)
Lemma str_of_int_reads_back z :
  exists digits,
    str_of_int z = (if (z <? 0)%Z then lit "-" else []) ++ digits /\
    Wire.parse_decimal digits = Some (Z.abs_N z) /\
    (digits = lit "0" \/ exists c t, digits = c :: t /\ c <> 48).
Proof.
  destruct z as [|q|q].
  - exists (str_of_N 0). repeat split; left; reflexivity.
  - exists (str_of_N (Npos q)). split; [reflexivity|].
    split; [apply parse_decimal_str_of_N | apply str_of_N_canonical].
  - exists (str_of_N (Npos q)). split; [reflexivity|].
    split; [apply parse_decimal_str_of_N | apply str_of_N_canonical].
Qed.

(** C9: when the POST comes back with a status that is not a success,
    [execute] raises [ApiError] with the text
    [Error <status>, <reason>], where [<status>] is the status code in
    decimal (a minus sign if it is negative, then digits that read as its
    absolute value, without leading zeros) and [<reason>] the reason
    phrase; no result is returned, one request was posted and only that
    one response was consumed. *)
Theorem execute_api_error
  (compress : bytes -> Z -> bytes) (self : Tio) (code language : str)
  (inputs : option str)
  (compiler_flags Cl_options arguments : option (list str))
  (p : bytes) (s : ClientSession) (r : ClientResponse)
  (rest : list ClientResponse) :
  bytes_ (data (resolve_language self language) code inputs
               compiler_flags Cl_options arguments) = Some p ->
  pending s = r :: rest ->
  ok r = false ->
  execute compress self code language inputs
          compiler_flags Cl_options arguments s
  = (inl (ApiError (lit "Error " ++ str_of_int (status r) ++ lit ", "
                    ++ reason r)),
     {| pending := rest;
        posted := posted s ++ [(API_URL self, post_body compress p)] |}) /\
  exists digits : str,
    str_of_int (status r)
    = (if (status r <? 0)%Z then lit "-" else []) ++ digits /\
    Wire.parse_decimal digits = Some (Z.abs_N (status r)) /\
    (digits = lit "0" \/ exists c t, digits = c :: t /\ c <> 48).
Proof.
  intros Hp Hs Hok. split.
  - rewrite (execute_on_response compress self code language inputs
               compiler_flags Cl_options arguments Hp s Hs).
    rewrite Hok. reflexivity.
  - apply str_of_int_reads_back.
Qed.

Lemma execute_api_error_witness :
  execute stored_compress Tio_init (lit "print(1)") (lit "python3")
          (Some []) (Some []) (Some []) (Some [])
          {| pending := [ {| ok := false; status := 503;
                             reason := lit "Service Unavailable";
                             body := [] |};
                          {| ok := true; status := 200; reason := lit "OK";
                             body := lit "late" |} ];
             posted := [] |}
  = (inl (ApiError (lit "Error 503, Service Unavailable")),
     {| pending := [ {| ok := true; status := 200; reason := lit "OK";
                        body := lit "late" |} ];
        posted := [(API_URL Tio_init,
                    post_body stored_compress
                      (lit "Vlang" ++ [0] ++ lit "1" ++ [0] ++ lit "python3"
                       ++ [0] ++ lit "F.code.tio" ++ [0] ++ lit "8" ++ [0]
                       ++ lit "print(1)" ++ [0] ++ lit "R"))] |}) /\
  exists digits : str,
    lit "503" = [] ++ digits /\
    Wire.parse_decimal digits = Some 503 /\
    (digits = lit "0" \/ exists c t, digits = c :: t /\ c <> 48).
Proof.
  exact (@execute_api_error stored_compress Tio_init (lit "print(1)")
           (lit "python3") (Some []) (Some []) (Some []) (Some [])
           (lit "Vlang" ++ [0] ++ lit "1" ++ [0] ++ lit "python3"
            ++ [0] ++ lit "F.code.tio" ++ [0] ++ lit "8" ++ [0]
            ++ lit "print(1)" ++ [0] ++ lit "R")
           {| pending := [ {| ok := false; status := 503;
                              reason := lit "Service Unavailable";
                              body := [] |};
                           {| ok := true; status := 200; reason := lit "OK";
                              body := lit "late" |} ];
              posted := [] |}
           {| ok := false; status := 503;
              reason := lit "Service Unavailable"; body := [] |}
           [ {| ok := true; status := 200; reason := lit "OK";
                body := lit "late" |} ]
           eq_refl eq_refl eq_refl).
Defined.

(** The text carried for a status below zero and for the status zero. *)
Example api_error_text_signs :
  api_error_text (-7) (lit "x") = lit "Error -7, x" /\
  api_error_text 0 [] = lit "Error 0, " /\
  api_error_text 404 (lit "Not Found") = lit "Error 404, Not Found".
Proof. repeat split. Qed.

(* ================================================================== *)
(** * Language resolution: [execute], lines 89-92                      *)
(* ================================================================== *)

Lemma filter_nil_all {A} (f : A -> bool) l :
  filter f l = [] -> Forall (fun x => f x = false) l.
Proof.
  induction l as [|x l IH]; cbn; [constructor|].
  destruct (f x) eqn:E; [discriminate|]. auto.
Qed.

Lemma filter_head_split {A} (f : A -> bool) l m rest :
  filter f l = m :: rest ->
  exists before after,
    l = before ++ m :: after /\
    Forall (fun x => f x = false) before /\ f m = true.
Proof.
  induction l as [|x l IH]; cbn; [discriminate|].
  destruct (f x) eqn:E.
  - intros [= -> _]. exists [], l. auto.
  - intros H. destruct (IH H) as (before & after & -> & Hb & Hm).
    exists (x :: before), after. auto.
Qed.

Lemma filter_all_false {A} (f : A -> bool) l :
  Forall (fun x => f x = false) l -> filter f l = [].
Proof.
  induction 1 as [|x l Hx _ IH]; cbn; [reflexivity|]. now rewrite Hx.
Qed.

Lemma not_infix_contains requested l :
  ~ infix requested l <-> str_contains requested l = false.
Proof.
  unfold infix. rewrite <- str_contains_infix.
  destruct (str_contains requested l); split; congruence.
Qed.

Lemma Forall_not_infix requested l :
  Forall (fun x => ~ infix requested x) l <->
  Forall (fun x => str_contains requested x = false) l.
Proof.
  rewrite !Forall_forall. split; intros H x Hx;
    apply not_infix_contains; auto.
Qed.

Lemma list_contains_false x l : list_contains x l = false <-> ~ In x l.
Proof.
  rewrite <- list_contains_In. destruct (list_contains x l);
    split; congruence.
Qed.

(** C6: the language that [execute] requests is the given identifier
    when it is a member of the catalog; otherwise the first entry of the
    catalog, in stored order, that holds it as a substring; otherwise
    the identifier itself, unchanged and without an error.  With the empty
    catalog of a client whose fetch never filled it, every identifier
    passes through. *)
Theorem resolve_language_spec :
  (forall (self : Tio) (requested m : str),
     resolve_language self requested = m <->
     resolves (languages self) requested m) /\
  (forall requested : str, resolve_language Tio_init requested = requested).
Proof.
  split; [|reflexivity].
  intros self requested m. unfold resolve_language. split.
  - intros <-. destruct (list_contains requested (languages self)) eqn:Hc.
    + cbn. apply ResExact. now apply list_contains_In.
    + cbn. apply list_contains_false in Hc.
      destruct (filter _ _) as [|x rest] eqn:Hf.
      * apply ResPass; auto. apply Forall_not_infix.
        now apply filter_nil_all.
      * apply filter_head_split in Hf as (before & after & E & Hb & Hx).
        apply (@ResFirst _ _ before x after Hc E).
        -- now apply Forall_not_infix.
        -- now apply str_contains_infix.
  - intros [Hin | before x after Hn E Hb Hx | Hn Hall].
    + apply list_contains_In in Hin. now rewrite Hin.
    + apply list_contains_false in Hn. rewrite Hn. cbn.
      rewrite E, filter_app.
      rewrite (filter_all_false _ (proj1 (Forall_not_infix _ _) Hb)).
      cbn. apply str_contains_infix in Hx. now rewrite Hx.
    + apply list_contains_false in Hn. rewrite Hn. cbn.
      now rewrite (filter_all_false _ (proj1 (Forall_not_infix _ _) Hall)).
Qed.

Lemma resolve_language_spec_witness :
  resolves [lit "python3"; lit "python2"; lit "py"] (lit "pyth")
           (lit "python3").
Proof.
  apply (proj1 (proj1 resolve_language_spec
                  {| API_URL := API_URL Tio_init;
                     languages := [lit "python3"; lit "python2"; lit "py"] |}
                  (lit "pyth") (lit "python3"))).
  reflexivity.
Defined.

(** The examples of the specification, section 8. *)
Example resolve_language_examples :
  let self := {| API_URL := API_URL Tio_init;
                 languages := [lit "python3"; lit "python2"; lit "py"] |} in
  resolve_language self (lit "python3") = lit "python3" /\
  resolve_language self (lit "pyth") = lit "python3" /\
  resolve_language self (lit "py") = lit "py" /\
  resolve_language self (lit "ruby") = lit "ruby" /\
  resolve_language Tio_init (lit "rust") = lit "rust".
Proof. repeat split. Qed.

(** C10 (as amended): in every payload the language field is the
    sequence record of count 1 with the resolved identifier, the bytes
    [Vlang\x001\x00<language>\x00]; the code and input fields are scalar
    records, ['F'], name, byte length, text, when their text is not
    empty, and take no byte when it is empty. *)
Theorem execute_field_kinds
  (self : Tio) (code language : str) (inputs : option str)
  (compiler_flags Cl_options arguments : option (list str))
  (langb codeb inputb r4 r5 r6 : bytes) :
  utf8_encode (resolve_language self language) = Some langb ->
  utf8_encode code = Some codeb ->
  utf8_encode (match inputs with Some i => i | None => [] end)
  = Some inputb ->
  _format_payload (lit "TIO_CFLAGS") (of_optional_list compiler_flags)
  = Some r4 ->
  _format_payload (lit "TIO_OPTIONS") (of_optional_list Cl_options)
  = Some r5 ->
  _format_payload (lit "args") (of_optional_list arguments) = Some r6 ->
  bytes_ (data (resolve_language self language) code inputs
               compiler_flags Cl_options arguments)
  = Some ((lit "Vlang" ++ [0] ++ lit "1" ++ [0] ++ langb ++ [0])
          ++ match code with
             | [] => []
             | _ :: _ =>
                 lit "F.code.tio" ++ [0]
                 ++ str_of_N (N.of_nat (length codeb)) ++ [0] ++ codeb ++ [0]
             end
          ++ match inputs with
             | Some (_ :: _) =>
                 lit "F.input.tio" ++ [0]
                 ++ str_of_N (N.of_nat (length inputb)) ++ [0]
                 ++ inputb ++ [0]
             | _ => []
             end
          ++ r4 ++ r5 ++ r6 ++ [82]).
Proof.
  intros El Ec Ei H4 H5 H6.
  apply bytes_six; auto.
  - rewrite (@format_vector (lit "lang") (lit "lang") eq_refl
               [resolve_language self language] [langb]);
      [| discriminate | repeat constructor; exact El].
    unfold vector_record. cbn [map concat length]. now rewrite app_nil_r.
  - destruct code as [|c code']; [reflexivity|].
    now rewrite (@format_scalar (lit ".code.tio") (lit ".code.tio") eq_refl
                   (c :: code') codeb).
  - destruct inputs as [[|c i]|]; try reflexivity. cbn [of_optional_str].
    now rewrite (@format_scalar (lit ".input.tio") (lit ".input.tio") eq_refl
                   (c :: i) inputb).
Qed.

Lemma execute_field_kinds_witness :
  bytes_ (data (resolve_language Tio_init (lit "python3")) (lit "print(1)")
               (Some (lit "7")) (Some []) None (Some [lit "-v"]))
  = Some ((lit "Vlang" ++ [0] ++ lit "1" ++ [0] ++ lit "python3" ++ [0])
          ++ (lit "F.code.tio" ++ [0] ++ str_of_N 8 ++ [0]
              ++ lit "print(1)" ++ [0])
          ++ (lit "F.input.tio" ++ [0] ++ str_of_N 1 ++ [0]
              ++ lit "7" ++ [0])
          ++ [] ++ []
          ++ (lit "Vargs" ++ [0] ++ lit "1" ++ [0] ++ lit "-v" ++ [0])
          ++ [82]).
Proof.
  apply (@execute_field_kinds Tio_init (lit "print(1)") (lit "python3")
           (Some (lit "7")) (Some []) None (Some [lit "-v"])
           (lit "python3") (lit "print(1)") (lit "7")); reflexivity.
Defined.

(** C10 (as stated) fails when the input is empty, as it is by default:
    the payload of [print(1)] in [python3] has the records of the
    language and of the code and then the terminator, and no record of
    the input field. *)
Lemma execute_empty_input_no_record :
  exists payload,
    bytes_ (data (resolve_language Tio_init (lit "python3"))
                 (lit "print(1)") (Some []) (Some []) (Some []) (Some []))
    = Some payload /\
    payload = lit "Vlang" ++ [0] ++ lit "1" ++ [0] ++ lit "python3" ++ [0]
              ++ lit "F.code.tio" ++ [0] ++ lit "8" ++ [0]
              ++ lit "print(1)" ++ [0] ++ lit "R" /\
    str_contains (lit "F.input.tio") payload = false /\
    str_contains (lit ".input.tio") payload = false.
Proof.
  eexists. split; [reflexivity|]. repeat split.
Qed.

(* ================================================================== *)
(** * The response: [execute], lines 111-120                           *)
(* ================================================================== *)

Import ReFacts.

Lemma compile_not_found :
  Re.compile not_found_pattern = Some (Re.seq not_found_atoms).
Proof. reflexivity. Qed.

Lemma text_matches_search text :
  text_matches text <-> Re.search (Re.seq not_found_atoms) text = true.
Proof.
  unfold text_matches. rewrite search_spec, compile_not_found. split.
  - intros (pat & pre & mid & suf & [= <-] & E & H). eauto.
  - intros (pre & mid & suf & E & H). eauto 8.
Qed.

Lemma not_text_matches_search text :
  ~ text_matches text <-> Re.search (Re.seq not_found_atoms) text = false.
Proof.
  rewrite text_matches_search.
  destruct (Re.search _ text); split; congruence.
Qed.

(** The message of the service is in the language of the pattern, with
    or without the spaces around the quoted name. *)
Lemma matches_not_found_message sp1 name sp2 last :
  sp1 = [] \/ sp1 = lit " " -> sp2 = [] \/ sp2 = lit " " ->
  name <> [] -> ~ In LF name -> last <> LF ->
  Re.matches (Re.seq not_found_atoms) (not_found_message sp1 name sp2 last).
Proof.
  intros H1 H2 Hn Hlf Hlast.
  assert (Hopt : forall sp, sp = [] \/ sp = lit " " ->
                            Re.matches (Re.Opt (Re.Chr 32)) sp).
  { intros sp [-> | ->];
      [apply matches_opt_skip | apply matches_opt_take; constructor]. }
  unfold not_found_atoms, not_found_message.
  apply matches_seq_app; [apply matches_literal|].
  change [Re.Opt (Re.Chr 32); Re.Chr 39; Re.Plus Re.Dot; Re.Chr 39;
          Re.Opt (Re.Chr 32)]
    with ([Re.Opt (Re.Chr 32)] ++ [Re.Chr 39] ++ [Re.Plus Re.Dot]
          ++ [Re.Chr 39] ++ [Re.Opt (Re.Chr 32)]).
  rewrite <- !app_assoc.
  apply matches_seq_app; [apply matches_seq_one; auto|].
  apply matches_seq_app; [apply matches_seq_one; constructor|].
  apply matches_seq_app;
    [apply matches_seq_one; now apply matches_plus_dot|].
  apply matches_seq_app; [apply matches_seq_one; constructor|].
  apply matches_seq_app; [apply matches_seq_one; auto|].
  apply matches_seq_app; [apply matches_literal|].
  apply matches_seq_one. now constructor.
Qed.

Lemma text_matches_message pre sp1 name sp2 last suf :
  sp1 = [] \/ sp1 = lit " " -> sp2 = [] \/ sp2 = lit " " ->
  name <> [] -> ~ In LF name -> last <> LF ->
  text_matches (pre ++ not_found_message sp1 name sp2 last ++ suf).
Proof.
  intros. exists (Re.seq not_found_atoms), pre,
    (not_found_message sp1 name sp2 last), suf.
  split; [apply compile_not_found | split; [reflexivity|]].
  now apply matches_not_found_message.
Qed.

(** A text without a quote character has no match. *)
Lemma no_quote_no_match text : ~ In 39 text -> ~ text_matches text.
Proof.
  intros H. apply not_text_matches_search.
  apply (search_needs 39); [reflexivity | exact H].
Qed.

Section Response.

Variable compress : bytes -> Z -> bytes.
Variable self : Tio.
Variables (code language : str) (inputs : option str).
Variables compiler_flags Cl_options arguments : option (list str).
Variable p : bytes.
Variable s : ClientSession.
Variable r : ClientResponse.
Variable rest : list ClientResponse.
Variable text : str.

Hypothesis payload_built :
  bytes_ (data (resolve_language self language) code inputs
               compiler_flags Cl_options arguments) = Some p.
Hypothesis response : pending s = r :: rest.
Hypothesis success : ok r = true.
Hypothesis decoded : utf8_decode (body r) = Some text.

Lemma execute_outcome :
  fst (execute compress self code language inputs
               compiler_flags Cl_options arguments s) =
  if Re.search (Re.seq not_found_atoms) text
  then inl (LanguageNotFound (skipn 16 text))
  else inr {| response_text := text;
              response_language := resolve_language self language |}.
Proof.
  rewrite (execute_on_response compress self code language inputs
             compiler_flags Cl_options arguments payload_built s response).
  rewrite success, decoded, compile_not_found.
  destruct (Re.search _ text); reflexivity.
Qed.

Lemma execute_match :
  text_matches text ->
  fst (execute compress self code language inputs
               compiler_flags Cl_options arguments s)
  = inl (LanguageNotFound (skipn 16 text)).
Proof.
  intros H. apply text_matches_search in H.
  now rewrite execute_outcome, H.
Qed.

Lemma execute_no_match :
  ~ text_matches text ->
  fst (execute compress self code language inputs
               compiler_flags Cl_options arguments s)
  = inr {| response_text := text;
           response_language := resolve_language self language |}.
Proof.
  intros H. apply not_text_matches_search in H.
  now rewrite execute_outcome, H.
Qed.

End Response.

(** C7 (as amended): for every response body that decodes to [text]:
    when some part of [text] matches the pattern of the service's
    message, [execute] raises [LanguageNotFound] carrying [text] without
    its first 16 characters; otherwise it returns a [TioResponse] of
    [text] and the resolved language.  A text holding the message
    [The language 'xyz' could not be found on the server.] matches, and
    the carried message holds the name [xyz] when at least 16 characters
    come before the message. *)
Theorem execute_classifies_response
  (compress : bytes -> Z -> bytes) (self : Tio) (code language : str)
  (inputs : option str)
  (compiler_flags Cl_options arguments : option (list str))
  (p : bytes) (s : ClientSession) (r : ClientResponse)
  (rest : list ClientResponse) (text : str) :
  bytes_ (data (resolve_language self language) code inputs
               compiler_flags Cl_options arguments) = Some p ->
  pending s = r :: rest ->
  ok r = true ->
  utf8_decode (body r) = Some text ->
  let outcome := fst (execute compress self code language inputs
                              compiler_flags Cl_options arguments s) in
  (text_matches text ->
   outcome = inl (LanguageNotFound (skipn 16 text))) /\
  (~ text_matches text ->
   outcome = inr {| response_text := text;
                    response_language := resolve_language self language |}) /\
  (forall pre name suf : str,
     name <> [] -> ~ In LF name ->
     text = pre ++ quoted_message name ++ suf ->
     outcome = inl (LanguageNotFound (skipn 16 text)) /\
     ((16 <= length pre)%nat -> infix name (skipn 16 text))).
Proof.
  intros Hp Hs Hok Hd outcome. split; [|split].
  - intros H. unfold outcome. eapply execute_match; eauto.
  - intros H. unfold outcome. eapply execute_no_match; eauto.
  - intros pre name suf Hn Hlf E. split.
    + unfold outcome. eapply execute_match; eauto. rewrite E.
      apply text_matches_message; auto; discriminate.
    + intros Hlen. rewrite E, skipn_app.
      replace (16 - length pre)%nat with 0%nat by lia. cbn [skipn].
      exists (skipn 16 pre ++ lit "The language" ++ lit " " ++ lit "'"),
        (lit "'" ++ lit " " ++ lit "could not be found on the server"
         ++ [46] ++ suf).
      unfold quoted_message, not_found_message.
      now rewrite <- !app_assoc.
Qed.

Lemma execute_classifies_response_witness :
  fst (execute stored_compress Tio_init (lit "print(1)") (lit "xyz")
               None None None None
               {| pending := [ {| ok := true; status := 200;
                                  reason := lit "OK";
                                  body := lit "0123456789abcdef"
                                          ++ quoted_message (lit "xyz") |} ];
                  posted := [] |})
  = inl (LanguageNotFound
           (skipn 16 (lit "0123456789abcdef" ++ quoted_message (lit "xyz"))))
  /\ infix (lit "xyz")
       (skipn 16 (lit "0123456789abcdef" ++ quoted_message (lit "xyz"))).
Proof.
  destruct (@execute_classifies_response stored_compress Tio_init
              (lit "print(1)") (lit "xyz") None None None None
              (lit "Vlang" ++ [0] ++ lit "1" ++ [0] ++ lit "xyz" ++ [0]
               ++ lit "F.code.tio" ++ [0] ++ lit "8" ++ [0]
               ++ lit "print(1)" ++ [0] ++ lit "R")
              {| pending := [ {| ok := true; status := 200;
                                 reason := lit "OK";
                                 body := lit "0123456789abcdef"
                                         ++ quoted_message (lit "xyz") |} ];
                 posted := [] |}
              {| ok := true; status := 200; reason := lit "OK";
                 body := lit "0123456789abcdef"
                         ++ quoted_message (lit "xyz") |}
              []
              (lit "0123456789abcdef" ++ quoted_message (lit "xyz"))
              eq_refl eq_refl eq_refl eq_refl) as (_ & _ & H).
  destruct (H (lit "0123456789abcdef") (lit "xyz") []) as [H1 H2].
  - discriminate.
  - unfold LF. cbn. lia.
  - now rewrite app_nil_r.
  - split; [exact H1 | apply H2; cbn; lia].
Defined.

(** C7 (as stated) fails for a body that is the message alone: the text
    matches, and the message carried by [LanguageNotFound] is the text
    from its 17th character on, [z' could not be found on the server.],
    which does not hold the name [xyz]. *)
Lemma execute_not_found_message_cut :
  let text := lit "The language 'xyz' could not be found on the server." in
  let msg := lit "z' could not be found on the server." in
  text_matches text /\
  fst (execute stored_compress Tio_init (lit "print(1)") (lit "xyz")
               (Some []) (Some []) (Some []) (Some [])
               {| pending := [ {| ok := true; status := 200;
                                  reason := lit "OK"; body := text |} ];
                  posted := [] |})
  = inl (LanguageNotFound msg) /\
  str_contains (lit "xyz") msg = false.
Proof.
  cbv zeta. split; [|split; reflexivity].
  now apply text_matches_search.
Qed.

(** C8 (as amended): the spaces around the quoted name are optional for
    detection, the quote characters are not.  A body holding
    [The language], a name in quotes that is not empty and has no
    newline, and [could not be found on the server.], with or without a
    space on either side of the quoted name, raises [LanguageNotFound]; a
    body with no quote character at all, such as
    [The language <name> could not be found on the server.] for a name
    without quotes, is returned as a successful [TioResponse]. *)
Theorem execute_not_found_needs_quotes
  (compress : bytes -> Z -> bytes) (self : Tio) (code language : str)
  (inputs : option str)
  (compiler_flags Cl_options arguments : option (list str))
  (p : bytes) (s : ClientSession) (r : ClientResponse)
  (rest : list ClientResponse) (text : str) :
  bytes_ (data (resolve_language self language) code inputs
               compiler_flags Cl_options arguments) = Some p ->
  pending s = r :: rest ->
  ok r = true ->
  utf8_decode (body r) = Some text ->
  let outcome := fst (execute compress self code language inputs
                              compiler_flags Cl_options arguments s) in
  let result := {| response_text := text;
                   response_language := resolve_language self language |} in
  (forall pre sp1 name sp2 suf : str,
     sp1 = [] \/ sp1 = lit " " -> sp2 = [] \/ sp2 = lit " " ->
     name <> [] -> ~ In LF name ->
     text = pre ++ not_found_message sp1 name sp2 46 ++ suf ->
     outcome = inl (LanguageNotFound (skipn 16 text))) /\
  (~ In 39 text -> outcome = inr result) /\
  (forall name : str,
     ~ In 39 name -> text = unquoted_message name -> outcome = inr result).
Proof.
  intros Hp Hs Hok Hd outcome result.
  assert (Hq : ~ In 39 text -> outcome = inr result).
  { intros H. unfold outcome, result. eapply execute_no_match; eauto.
    now apply no_quote_no_match. }
  split; [|split; [exact Hq|]].
  - intros pre sp1 name sp2 suf H1 H2 Hn Hlf E.
    unfold outcome. eapply execute_match; eauto. rewrite E.
    apply text_matches_message; auto; discriminate.
  - intros name Hn E. apply Hq. rewrite E. unfold unquoted_message.
    rewrite !in_app_iff. intros [H | [H | H]]; auto;
      revert H; cbn; lia.
Qed.

Lemma execute_not_found_needs_quotes_witness :
  fst (execute stored_compress Tio_init (lit "print(1)") (lit "xyz")
               None None None None
               {| pending := [ {| ok := true; status := 200;
                                  reason := lit "OK";
                                  body := unquoted_message (lit "xyz") |} ];
                  posted := [] |})
  = inr {| response_text := unquoted_message (lit "xyz");
           response_language := resolve_language Tio_init (lit "xyz") |}.
Proof.
  destruct (@execute_not_found_needs_quotes stored_compress Tio_init
              (lit "print(1)") (lit "xyz") None None None None
              (lit "Vlang" ++ [0] ++ lit "1" ++ [0] ++ lit "xyz" ++ [0]
               ++ lit "F.code.tio" ++ [0] ++ lit "8" ++ [0]
               ++ lit "print(1)" ++ [0] ++ lit "R")
              {| pending := [ {| ok := true; status := 200;
                                 reason := lit "OK";
                                 body := unquoted_message (lit "xyz") |} ];
                 posted := [] |}
              {| ok := true; status := 200; reason := lit "OK";
                 body := unquoted_message (lit "xyz") |}
              []
              (unquoted_message (lit "xyz"))
              eq_refl eq_refl eq_refl eq_refl) as (_ & _ & H).
  apply (H (lit "xyz")); [cbn; lia | reflexivity].
Defined.

(** C8 (as stated) fails: the body
    [The language xyz could not be found on the server.], the message
    with the quote characters left out, does not match the pattern, and
    [execute] returns it as a successful result. *)
Lemma execute_unquoted_message_is_result :
  let text := lit "The language xyz could not be found on the server." in
  ~ text_matches text /\
  fst (execute stored_compress Tio_init (lit "print(1)") (lit "xyz")
               (Some []) (Some []) (Some []) (Some [])
               {| pending := [ {| ok := true; status := 200;
                                  reason := lit "OK"; body := text |} ];
                  posted := [] |})
  = inr {| response_text := text; response_language := lit "xyz" |}.
Proof.
  cbv zeta. split; [|reflexivity].
  now apply not_text_matches_search.
Qed.

(** Between the quotes the pattern wants one character or more, none of
    them a newline: the message with an empty name and the message whose
    name is broken by a newline are returned as results. *)
Example not_found_name_shape :
  ~ text_matches (quoted_message []) /\
  ~ text_matches (quoted_message (lit "x" ++ [LF] ++ lit "y")) /\
  fst (execute stored_compress Tio_init (lit "print(1)") (lit "xyz")
               None None None None
               {| pending := [ {| ok := true; status := 200;
                                  reason := lit "OK";
                                  body := quoted_message [] |} ];
                  posted := [] |})
  = inr {| response_text := quoted_message [];
           response_language := lit "xyz" |}.
Proof.
  split; [|split]; try reflexivity; now apply not_text_matches_search.
Qed.

(* ================================================================== *)
(** * More on the field encoder: what a record determines              *)
(* ================================================================== *)

Import Payload.

Lemma utf8_encode_app_inv s t bs :
  utf8_encode (s ++ t) = Some bs ->
  exists b1 b2,
    utf8_encode s = Some b1 /\ utf8_encode t = Some b2 /\ bs = b1 ++ b2.
Proof.
  revert bs. induction s as [|c s IH]; intros bs.
  - intros H. exists [], bs. auto.
  - rewrite <- app_comm_cons, !utf8_encode_cons.
    destruct (utf8_encode_char c) as [e|]; try discriminate.
    destruct (utf8_encode (s ++ t)) as [r|]; try discriminate.
    destruct (IH r eq_refl) as (b1 & b2 & -> & -> & ->).
    intros [= <-]. exists (e ++ b1), b2. now rewrite app_assoc.
Qed.

(** A record that was written comes from a name and a text that could
    be encoded. *)
Lemma format_scalar_inv name s r :
  s <> [] -> _format_payload name (ObjStr s) = Some r ->
  exists nameb sb,
    utf8_encode name = Some nameb /\ utf8_encode s = Some sb /\
    r = scalar_record nameb sb.
Proof.
  intros Hs H. pose proof H as H0. unfold _format_payload in H.
  destruct s as [|c s]; [congruence|]. cbn [truthy negb] in H.
  destruct (utf8_encode (c :: s)) as [sb|] eqn:Es; [|discriminate].
  apply utf8_encode_app_inv in H as (b1 & b2 & _ & H & _).
  apply utf8_encode_app_inv in H as (nameb & b3 & En & _ & _).
  exists nameb, sb. split; [exact En | split; [reflexivity|]].
  rewrite (@format_scalar name nameb En (c :: s) sb Hs Es) in H0.
  now injection H0.
Qed.

Lemma encode_join_inv l :
  forall r, l <> [] -> utf8_encode (join NUL l ++ NUL) = Some r ->
  exists es, Forall2 (fun e b => utf8_encode e = Some b) l es.
Proof.
  induction l as [|x l IH]; intros r Hl H; [congruence|].
  destruct l as [|y l].
  - cbn [join] in H.
    apply utf8_encode_app_inv in H as (b & _ & Hx & _ & _).
    exists [b]. repeat constructor. exact Hx.
  - change (join NUL (x :: y :: l)) with (x ++ NUL ++ join NUL (y :: l)) in H.
    rewrite <- !app_assoc in H.
    apply utf8_encode_app_inv in H as (b & r1 & Hx & H & _).
    apply utf8_encode_app_inv in H as (_ & r2 & _ & H & _).
    destruct (IH r2) as (es & Hes); [discriminate | exact H |].
    exists (b :: es). now constructor.
Qed.

Lemma format_vector_inv name l r :
  l <> [] -> _format_payload name (ObjList l) = Some r ->
  exists nameb es,
    utf8_encode name = Some nameb /\
    Forall2 (fun e b => utf8_encode e = Some b) l es /\
    r = vector_record nameb es.
Proof.
  intros Hl H. pose proof H as H0. unfold _format_payload in H.
  destruct l as [|x l]; [congruence|]. cbn [truthy negb] in H.
  set (n := str_of_len (x :: l)) in H.
  change (join NUL ((lit "V" ++ name) :: n :: x :: l))
    with ((lit "V" ++ name) ++ NUL ++ n ++ NUL ++ join NUL (x :: l)) in H.
  rewrite <- !app_assoc in H.
  apply utf8_encode_app_inv in H as (_ & b1 & _ & H & _).
  apply utf8_encode_app_inv in H as (nameb & b2 & En & H & _).
  apply utf8_encode_app_inv in H as (_ & b3 & _ & H & _).
  apply utf8_encode_app_inv in H as (_ & b4 & _ & H & _).
  apply utf8_encode_app_inv in H as (_ & b5 & _ & H & _).
  destruct (@encode_join_inv (x :: l) b5) as (es & Hes);
    [discriminate | exact H |].
  exists nameb, es. split; [exact En | split; [exact Hes|]].
  rewrite (@format_vector name nameb En (x :: l) es Hl Hes) in H0.
  now injection H0.
Qed.

(** Encoding is injective on the strings it accepts. *)
Lemma utf8_encode_inj s t b :
  utf8_encode s = Some b -> utf8_encode t = Some b -> s = t.
Proof.
  intros Hs Ht. apply utf8_decode_encode in Hs, Ht. congruence.
Qed.

(** X1: a scalar record determines its field.  Two fields with names
    free of NUL and non-empty texts that are written as the same bytes
    have the same name and the same text. *)
Theorem scalar_record_determines_field (n1 n2 s1 s2 : str) (r : bytes) :
  ~ In 0 n1 -> ~ In 0 n2 -> s1 <> [] -> s2 <> [] ->
  _format_payload n1 (ObjStr s1) = Some r ->
  _format_payload n2 (ObjStr s2) = Some r ->
  n1 = n2 /\ s1 = s2.
Proof.
  intros N1 N2 S1 S2 H1 H2.
  apply format_scalar_inv in H1 as (b1 & t1 & E1 & T1 & R1); auto.
  apply format_scalar_inv in H2 as (b2 & t2 & E2 & T2 & R2); auto.
  pose proof (@decode_scalar_record n1 s1 b1 t1 [] N1 E1 T1) as D1.
  pose proof (@decode_scalar_record n2 s2 b2 t2 [] N2 E2 T2) as D2.
  rewrite <- R1 in D1. rewrite <- R2 in D2. rewrite D1 in D2.
  injection D2 as -> _ ->. auto.
Qed.

Lemma scalar_record_determines_field_witness :
  lit ".code.tio" = lit ".code.tio" /\ [233; 33] = [233; 33].
Proof.
  apply (@scalar_record_determines_field
           (lit ".code.tio") (lit ".code.tio") [233; 33] [233; 33]
           (lit "F.code.tio" ++ [0] ++ lit "3" ++ [0] ++ [195; 169; 33]
            ++ [0]));
    try discriminate; try reflexivity; cbn; lia.
Defined.

(** X2: a sequence record reads back.  For a name and elements free of
    NUL, reading the record that [_format_payload] writes for a non-empty
    list gives the name, the number of elements and the elements, and
    leaves what comes after the record. *)
Theorem sequence_record_reads_back (name : str) (l : list str)
  (r rest : bytes) :
  l <> [] -> ~ In 0 name -> nul_free l ->
  _format_payload name (ObjList l) = Some r ->
  Wire.spec_decode_vector (r ++ rest)
  = Some (name, N.of_nat (length l), l, rest).
Proof.
  intros Hl Hn Hf H.
  apply format_vector_inv in H as (nameb & es & En & Es & ->); auto.
  now apply decode_vector_record.
Qed.

Lemma sequence_record_reads_back_witness :
  Wire.spec_decode_vector
    ((lit "Vargs" ++ [0] ++ lit "2" ++ [0] ++ lit "-v" ++ [0]
      ++ [195; 169] ++ [0]) ++ [82])
  = Some (lit "args", 2, [lit "-v"; [233]], [82]).
Proof.
  apply (@sequence_record_reads_back (lit "args") [lit "-v"; [233]]).
  - discriminate.
  - cbn. lia.
  - repeat constructor; cbn; lia.
  - reflexivity.
Defined.

(** ** Reading a whole payload *)

Lemma read_fields_scalar fuel nameb sb rest :
  read_fields (S fuel) (scalar_record nameb sb ++ rest) =
  match Wire.spec_decode_scalar (scalar_record nameb sb ++ rest) with
  | Some (name, _, text, rest') =>
      option_map (cons (Scalar name text)) (read_fields fuel rest')
  | None => None
  end.
Proof. reflexivity. Qed.

Lemma read_fields_vector fuel nameb es rest :
  read_fields (S fuel) (vector_record nameb es ++ rest) =
  match Wire.spec_decode_vector (vector_record nameb es ++ rest) with
  | Some (name, _, elems, rest') =>
      option_map (cons (Vector name elems)) (read_fields fuel rest')
  | None => None
  end.
Proof. reflexivity. Qed.

Lemma read_fields_parts d :
  forall parts fuel,
    Forall readable d ->
    collect (map (fun kv => _format_payload (fst kv) (snd kv)) d)
    = Some parts ->
    (length (present d) < fuel)%nat ->
    read_fields fuel (concat parts ++ [82]) = Some (present d).
Proof.
  induction d as [|[k v] d IH]; intros parts fuel Hd Hc Hf.
  - injection Hc as <-. destruct fuel; [inversion Hf | reflexivity].
  - inversion Hd as [|kv d' [Hk Hv] Hd']; subst. cbn [fst snd] in *.
    cbn [map collect fst snd] in Hc.
    destruct (_format_payload k v) as [r|] eqn:Er; [|discriminate].
    destruct (collect _) as [ps|] eqn:Ec; [|discriminate].
    injection Hc as <-. cbn [concat]. rewrite <- app_assoc.
    unfold present in *. cbn [flat_map] in *.
    assert (Hskip : written (k, v) = [] -> r = [] ->
                    read_fields fuel (r ++ concat ps ++ [82])
                    = Some (written (k, v) ++ flat_map written d)).
    { intros E ->. rewrite E in *. cbn [app] in *. apply IH; auto. }
    destruct v as [|[|c s]|[|x l]];
      try (apply Hskip; [reflexivity | now injection Er]).
    + apply format_scalar_inv in Er as (nb & sb & En & Es & ->);
        [|discriminate].
      cbn [written snd fst app length] in *.
      destruct fuel as [|fuel]; [inversion Hf|].
      rewrite read_fields_scalar.
      rewrite (@decode_scalar_record k (c :: s) nb sb _ Hk En Es).
      rewrite (IH ps fuel Hd' eq_refl) by lia. reflexivity.
    + apply format_vector_inv in Er as (nb & es & En & Es & ->);
        [|discriminate].
      cbn [written snd fst app length] in *.
      destruct fuel as [|fuel]; [inversion Hf|].
      rewrite read_fields_vector.
      rewrite (@decode_vector_record k (x :: l) nb es _ Hk Hv En Es).
      rewrite (IH ps fuel Hd' eq_refl) by lia. reflexivity.
Qed.

Lemma present_length d : (length (present d) <= length d)%nat.
Proof.
  induction d as [|[k v] d IH]; [constructor|].
  unfold present in *. cbn [flat_map]. rewrite length_app.
  assert (length (written (k, v)) <= 1)%nat
    by (destruct v as [|[|? ?]|[|? ?]]; cbn; lia).
  cbn [length]. lia.
Qed.

Lemma read_fields_bytes d p :
  Forall readable d -> bytes_ d = Some p ->
  read_fields (S (length d)) p = Some (present d).
Proof.
  intros Hd Hp. unfold bytes_ in Hp. rewrite map2_keys_values in Hp.
  destruct (collect _) as [parts|] eqn:Ec; [|discriminate].
  injection Hp as <-. apply read_fields_parts; auto.
  pose proof (present_length d). lia.
Qed.

(** X3: a payload reads back.  When the names of a dictionary and the
    elements of its lists hold no NUL, reading the payload built from it
    gives exactly its non-empty fields, in order, and stops at the
    terminator ['R']. *)
Theorem payload_reads_back (d : dict) (p : bytes) :
  Forall readable d -> bytes_ d = Some p ->
  read_fields (S (length d)) p = Some (present d).
Proof.
  intros Hd Hp. unfold bytes_ in Hp. rewrite map2_keys_values in Hp.
  destruct (collect _) as [parts|] eqn:Ec; [|discriminate].
  injection Hp as <-. apply read_fields_parts; auto.
  pose proof (present_length d). lia.
Qed.

Lemma payload_reads_back_witness :
  read_fields 7
    (lit "Vlang" ++ [0] ++ lit "1" ++ [0] ++ lit "python3" ++ [0]
     ++ lit "F.code.tio" ++ [0] ++ lit "8" ++ [0] ++ lit "print(1)" ++ [0]
     ++ lit "Vargs" ++ [0] ++ lit "2" ++ [0] ++ lit "-v" ++ [0]
     ++ lit "x" ++ [0] ++ lit "R")
  = Some [Vector (lit "lang") [lit "python3"];
          Scalar (lit ".code.tio") (lit "print(1)");
          Vector (lit "args") [lit "-v"; lit "x"]].
Proof.
  apply (@payload_reads_back
           (data (lit "python3") (lit "print(1)") (Some []) None (Some [])
                 (Some [lit "-v"; lit "x"]))).
  - rewrite data_items. unfold readable, nul_free.
    repeat constructor; cbn; lia.
  - reflexivity.
Defined.

(** ** The request behind a payload *)

Section RequestFields.

Variables (language code : str) (inputs : option str).
Variables compiler_flags Cl_options arguments : option (list str).

Local Ltac by_shape :=
  destruct code as [|? ?], inputs as [[|? ?]|],
    compiler_flags as [[|? ?]|], Cl_options as [[|? ?]|],
    arguments as [[|? ?]|];
  reflexivity.

Lemma present_lang :
  vector_of (lit "lang")
    (present (data language code inputs compiler_flags Cl_options arguments))
  = [language].
Proof. reflexivity. Qed.

Lemma present_code :
  scalar_of (lit ".code.tio")
    (present (data language code inputs compiler_flags Cl_options arguments))
  = code.
Proof. by_shape. Qed.

Lemma present_input :
  scalar_of (lit ".input.tio")
    (present (data language code inputs compiler_flags Cl_options arguments))
  = text_of inputs.
Proof. by_shape. Qed.

Lemma present_cflags :
  vector_of (lit "TIO_CFLAGS")
    (present (data language code inputs compiler_flags Cl_options arguments))
  = list_of compiler_flags.
Proof. by_shape. Qed.

Lemma present_options :
  vector_of (lit "TIO_OPTIONS")
    (present (data language code inputs compiler_flags Cl_options arguments))
  = list_of Cl_options.
Proof. by_shape. Qed.

Lemma present_args :
  vector_of (lit "args")
    (present (data language code inputs compiler_flags Cl_options arguments))
  = list_of arguments.
Proof. by_shape. Qed.

Lemma data_readable :
  ~ In 0 language ->
  nul_free (list_of compiler_flags) -> nul_free (list_of Cl_options) ->
  nul_free (list_of arguments) ->
  Forall readable
    (data language code inputs compiler_flags Cl_options arguments).
Proof.
  intros Hl Hf Ho Ha. rewrite data_items.
  assert (Hlist : forall o, nul_free (list_of o) ->
                            match of_optional_list o with
                            | ObjList l => nul_free l
                            | _ => True
                            end)
    by (intros [l|]; cbn; auto).
  unfold readable.
  repeat apply Forall_cons; try apply Forall_nil; cbn [fst snd];
    (split; [cbn; lia|]); auto.
  - repeat constructor. exact Hl.
  - destruct inputs; exact I.
  - now apply Hlist.
  - now apply Hlist.
  - now apply Hlist.
Qed.

End RequestFields.

(** The fields of two equal payloads are equal. *)
Lemma payload_determines_fields
  (l1 l2 c1 c2 : str) (i1 i2 : option str)
  (f1 f2 o1 o2 a1 a2 : option (list str)) (p : bytes) :
  ~ In 0 l1 -> ~ In 0 l2 ->
  nul_free (list_of f1) -> nul_free (list_of o1) -> nul_free (list_of a1) ->
  nul_free (list_of f2) -> nul_free (list_of o2) -> nul_free (list_of a2) ->
  bytes_ (data l1 c1 i1 f1 o1 a1) = Some p ->
  bytes_ (data l2 c2 i2 f2 o2 a2) = Some p ->
  l1 = l2 /\ c1 = c2 /\ text_of i1 = text_of i2 /\
  list_of f1 = list_of f2 /\ list_of o1 = list_of o2 /\
  list_of a1 = list_of a2.
Proof.
  intros L1 L2 F1 O1 A1 F2 O2 A2 P1 P2.
  apply read_fields_bytes in P1; [|now apply data_readable].
  apply read_fields_bytes in P2; [|now apply data_readable].
  assert (E : present (data l1 c1 i1 f1 o1 a1)
              = present (data l2 c2 i2 f2 o2 a2)).
  { rewrite !data_items in P1, P2. cbn [length] in P1, P2.
    rewrite !data_items. congruence. }
  pose proof (f_equal (vector_of (lit "lang")) E) as El.
  pose proof (f_equal (scalar_of (lit ".code.tio")) E) as Ec.
  pose proof (f_equal (scalar_of (lit ".input.tio")) E) as Ei.
  pose proof (f_equal (vector_of (lit "TIO_CFLAGS")) E) as Ef.
  pose proof (f_equal (vector_of (lit "TIO_OPTIONS")) E) as Eo.
  pose proof (f_equal (vector_of (lit "args")) E) as Ea.
  rewrite !present_lang in El. rewrite !present_code in Ec.
  rewrite !present_input in Ei. rewrite !present_cflags in Ef.
  rewrite !present_options in Eo. rewrite !present_args in Ea.
  injection El as ->. auto 10.
Qed.

(** X4: a payload determines the request up to the resolution of the
    language.  When the resolved languages and the elements of the three
    lists hold no NUL, two calls of [execute] (on any two clients) that
    build the same payload requested the same resolved language and were
    given the same code, input, compiler flags, options and arguments, an
    absent ([None]) optional argument counting as the empty one.  The
    identifiers given may differ: the payload holds the resolved one. *)
Theorem payload_determines_request
  (self1 self2 : Tio) (language1 language2 c1 c2 : str)
  (i1 i2 : option str)
  (f1 f2 o1 o2 a1 a2 : option (list str)) (p : bytes) :
  ~ In 0 (resolve_language self1 language1) ->
  ~ In 0 (resolve_language self2 language2) ->
  nul_free (list_of f1) -> nul_free (list_of o1) -> nul_free (list_of a1) ->
  nul_free (list_of f2) -> nul_free (list_of o2) -> nul_free (list_of a2) ->
  bytes_ (data (resolve_language self1 language1) c1 i1 f1 o1 a1) = Some p ->
  bytes_ (data (resolve_language self2 language2) c2 i2 f2 o2 a2) = Some p ->
  resolve_language self1 language1 = resolve_language self2 language2 /\
  c1 = c2 /\ text_of i1 = text_of i2 /\
  list_of f1 = list_of f2 /\ list_of o1 = list_of o2 /\
  list_of a1 = list_of a2.
Proof.
  intros L1 L2 F1 O1 A1 F2 O2 A2 P1 P2.
  now apply (@payload_determines_fields _ _ c1 c2 i1 i2 f1 f2 o1 o2 a1 a2 p).
Qed.

Lemma payload_determines_request_witness :
  resolve_language
    {| API_URL := API_URL Tio_init; languages := [lit "python3"] |}
    (lit "pyth")
  = resolve_language Tio_init (lit "python3") /\
  lit "print(1)" = lit "print(1)" /\
  text_of None = text_of (Some []) /\
  list_of (Some []) = list_of None /\ list_of None = list_of None /\
  list_of (Some [lit "-v"]) = list_of (Some [lit "-v"]).
Proof.
  apply (@payload_determines_request
           {| API_URL := API_URL Tio_init; languages := [lit "python3"] |}
           Tio_init (lit "pyth") (lit "python3")
           (lit "print(1)") (lit "print(1)")
           None (Some []) (Some []) None None None
           (Some [lit "-v"]) (Some [lit "-v"])
           (lit "Vlang" ++ [0] ++ lit "1" ++ [0] ++ lit "python3" ++ [0]
            ++ lit "F.code.tio" ++ [0] ++ lit "8" ++ [0] ++ lit "print(1)"
            ++ [0] ++ lit "Vargs" ++ [0] ++ lit "1" ++ [0] ++ lit "-v" ++ [0]
            ++ lit "R"));
    try reflexivity; try (cbn; lia);
    unfold nul_free; repeat constructor; cbn; lia.
Defined.

(** Two identifiers that resolve alike are one request: on a catalog
    holding [python3], the calls given [pyth] and [python3] build the same
    payload. *)
Example resolved_alike_same_payload :
  bytes_ (data (resolve_language
                  {| API_URL := API_URL Tio_init;
                     languages := [lit "python3"] |} (lit "pyth"))
               (lit "print(1)") None None None None)
  = bytes_ (data (resolve_language
                    {| API_URL := API_URL Tio_init;
                       languages := [lit "python3"] |} (lit "python3"))
                 (lit "print(1)") None None None None).
Proof. reflexivity. Qed.

(* ================================================================== *)
(** * More on language resolution                                      *)
(* ================================================================== *)

Lemma resolve_language_cases self l :
  resolve_language self l = l \/
  (~ In l (languages self) /\ In (resolve_language self l) (languages self)
   /\ str_contains l (resolve_language self l) = true).
Proof.
  unfold resolve_language.
  destruct (list_contains l (languages self)) eqn:Hc; cbn; [now left|].
  destruct (filter _ _) as [|m rest] eqn:Hf; [now left|]. right.
  apply list_contains_false in Hc.
  apply filter_head_split in Hf as (before & after & E & _ & Hm).
  repeat split; auto. rewrite E, in_app_iff. right. now left.
Qed.

(** X5: the language that [execute] requests always holds the given
    identifier as a substring, and is the identifier itself or an entry of
    the catalog; resolving it once more changes nothing. *)
Theorem resolve_language_result (self : Tio) (l : str) :
  infix l (resolve_language self l) /\
  (resolve_language self l = l \/
   In (resolve_language self l) (languages self)) /\
  resolve_language self (resolve_language self l) = resolve_language self l.
Proof.
  destruct (resolve_language_cases self l) as [E | (Hn & Hin & Hc)].
  - rewrite !E. split; [|split; [now left | reflexivity]].
    exists [], []. now rewrite app_nil_r.
  - split; [now apply str_contains_infix | split; [now right|]].
    set (m := resolve_language self l) in *.
    unfold resolve_language. apply list_contains_In in Hin.
    now rewrite Hin.
Qed.

(** X6: an empty language identifier is not passed through when the
    catalog is filled: every entry holds the empty string, so the request
    goes out for the first entry of the catalog (unless the empty string
    is itself an entry). *)
Theorem resolve_language_empty (self : Tio) (m : str) (rest : list str) :
  languages self = m :: rest -> ~ In [] (languages self) ->
  resolve_language self [] = m.
Proof.
  intros E Hn. unfold resolve_language.
  apply list_contains_false in Hn. rewrite Hn, E. cbn [negb filter].
  assert (Hm : str_contains [] m = true) by (destruct m; reflexivity).
  now rewrite Hm.
Qed.

Lemma resolve_language_empty_witness :
  resolve_language
    {| API_URL := API_URL Tio_init;
       languages := [lit "05ab1e"; lit "python3"] |} []
  = lit "05ab1e".
Proof.
  apply (@resolve_language_empty
           {| API_URL := API_URL Tio_init;
              languages := [lit "05ab1e"; lit "python3"] |}
           (lit "05ab1e") [lit "python3"]).
  - reflexivity.
  - cbn. intros [H | [H | H]]; try discriminate; exact H.
Defined.

(* ================================================================== *)
(** * More on [execute]: failures around the request                   *)
(* ================================================================== *)

Lemma utf8_encode_none_l s t :
  utf8_encode s = None -> utf8_encode (s ++ t) = None.
Proof.
  intros H. destruct (utf8_encode (s ++ t)) eqn:E; [|reflexivity].
  apply utf8_encode_app_inv in E as (b1 & _ & E & _). congruence.
Qed.

Lemma utf8_encode_none_r s t :
  utf8_encode t = None -> utf8_encode (s ++ t) = None.
Proof.
  intros H. destruct (utf8_encode (s ++ t)) eqn:E; [|reflexivity].
  apply utf8_encode_app_inv in E as (_ & b2 & _ & E & _). congruence.
Qed.

Lemma format_scalar_none name s :
  utf8_encode s = None -> _format_payload name (ObjStr s) = None.
Proof.
  intros H. unfold _format_payload.
  destruct s as [|c s]; [discriminate H|]. cbn [truthy negb].
  now rewrite H.
Qed.

Lemma format_vector_none name l e :
  In e l -> utf8_encode e = None -> _format_payload name (ObjList l) = None.
Proof.
  intros Hin He.
  destruct (_format_payload name (ObjList l)) as [r|] eqn:E; [|reflexivity].
  apply format_vector_inv in E as (nb & es & _ & Hes & _).
  - exfalso. clear -Hin He Hes.
    induction Hes as [|x b l es Hx _ IH]; [contradiction|].
    destruct Hin as [-> | Hin]; [congruence | auto].
  - intros ->. contradiction.
Qed.

Lemma collect_none {A} (l : list (option A)) :
  In None l -> collect l = None.
Proof.
  induction l as [|[a|] l IH]; cbn; intros H; try reflexivity.
  - contradiction.
  - destruct H as [H | H]; [discriminate|]. now rewrite IH.
Qed.

Lemma bytes_none d k v :
  In (k, v) d -> _format_payload k v = None -> bytes_ d = None.
Proof.
  intros Hin Hf. unfold bytes_. rewrite map2_keys_values.
  rewrite collect_none; [reflexivity|].
  rewrite <- Hf. apply (in_map (fun kv => _format_payload (fst kv) (snd kv))
                          d (k, v) Hin).
Qed.

(** X7: a request that cannot be encoded is never sent.  When the
    resolved language, the code, the input or an element of one of the
    three lists has no UTF-8 encoding (it holds a lone surrogate),
    [execute] raises [UnicodeEncodeError]; nothing is posted and no
    response is consumed. *)
Theorem execute_unencodable_not_sent
  (compress : bytes -> Z -> bytes) (self : Tio) (code language : str)
  (inputs : option str)
  (compiler_flags Cl_options arguments : option (list str))
  (s : ClientSession) :
  utf8_encode (resolve_language self language) = None \/
  utf8_encode code = None \/
  utf8_encode (text_of inputs) = None \/
  (exists e,
     In e (list_of compiler_flags ++ list_of Cl_options ++ list_of arguments)
     /\ utf8_encode e = None) ->
  execute compress self code language inputs
          compiler_flags Cl_options arguments s
  = (inl UnicodeEncodeError, s).
Proof.
  intros H.
  assert (Hb : bytes_ (data (resolve_language self language) code inputs
                            compiler_flags Cl_options arguments) = None).
  { set (l := resolve_language self language) in *.
    assert (Hlist : forall k o e,
               In (k, of_optional_list o)
                  (data l code inputs compiler_flags Cl_options arguments) ->
               In e (list_of o) -> utf8_encode e = None ->
               bytes_ (data l code inputs compiler_flags Cl_options arguments)
               = None).
    { intros k [x|] e Hk He Hn; [|contradiction].
      eapply bytes_none; [exact Hk|].
      eapply format_vector_none; [exact He | exact Hn]. }
    destruct H as [H | [H | [H | (e & He & Hn)]]].
    - apply (@bytes_none _ (lit "lang") (ObjList [l])).
      + rewrite data_items. now left.
      + eapply format_vector_none; [now left | exact H].
    - apply (@bytes_none _ (lit ".code.tio") (ObjStr code)).
      + rewrite data_items. right. now left.
      + now apply format_scalar_none.
    - destruct inputs as [i|]; [|discriminate H].
      apply (@bytes_none _ (lit ".input.tio") (ObjStr i)).
      + rewrite data_items. right. right. now left.
      + now apply format_scalar_none.
    - rewrite !in_app_iff in He. destruct He as [He | [He | He]].
      + apply (Hlist (lit "TIO_CFLAGS") compiler_flags e); auto.
        rewrite data_items. do 3 right. now left.
      + apply (Hlist (lit "TIO_OPTIONS") Cl_options e); auto.
        rewrite data_items. do 4 right. now left.
      + apply (Hlist (lit "args") arguments e); auto.
        rewrite data_items. do 5 right. now left. }
  unfold execute. now rewrite Hb.
Qed.

Lemma execute_unencodable_not_sent_witness :
  execute stored_compress Tio_init (lit "print(" ++ [0xD800] ++ lit ")")
          (lit "python3") None None None None
          {| pending := [ {| ok := true; status := 200; reason := lit "OK";
                             body := [] |} ];
             posted := [] |}
  = (inl UnicodeEncodeError,
     {| pending := [ {| ok := true; status := 200; reason := lit "OK";
                        body := [] |} ];
        posted := [] |}).
Proof.
  apply (@execute_unencodable_not_sent stored_compress Tio_init
           (lit "print(" ++ [0xD800] ++ lit ")") (lit "python3")
           None None None None).
  right. left. reflexivity.
Defined.

(** A byte from 0xF5 up occurs in no UTF-8 text. *)
Lemma utf8_decode_bad_byte (b : N) :
  0xF5 <= b ->
  forall n (bs : list N),
    (length bs <= n)%nat -> In b bs -> utf8_decode bs = None.
Proof.
  intros Hb. induction n as [|n IH]; intros bs Hlen Hin.
  - destruct bs; [contradiction | cbn in Hlen; lia].
  - destruct bs as [|b0 r0]; [contradiction|].
    rewrite utf8_decode_cons. unfold is_cont.
    assert (Hopt : forall c (l : list N),
               (length l <= n)%nat -> In b l ->
               option_map (cons c) (utf8_decode l) = None).
    { intros c l Hl Hi. now rewrite (IH l Hl Hi). }
    cbn [length] in Hlen.
    destruct (N.ltb_spec b0 0x80).
    { apply Hopt; [lia|]. destruct Hin as [-> | Hin]; [lia | exact Hin]. }
    destruct (N.ltb_spec b0 0xC2); [reflexivity|].
    destruct (N.ltb_spec b0 0xE0).
    { destruct r0 as [|b1 r1]; [reflexivity|].
      destruct (N.leb_spec 0x80 b1); cbn [andb]; [|reflexivity].
      destruct (N.ltb_spec b1 0xC0); [|reflexivity].
      apply Hopt; [cbn [length] in Hlen; lia|].
      destruct Hin as [-> | [-> | Hin]]; [lia | lia | exact Hin]. }
    destruct (N.ltb_spec b0 0xF0).
    { destruct r0 as [|b1 [|b2 r2]]; try reflexivity. cbv zeta.
      destruct (N.leb_spec 0x80 b1); cbn [andb]; [|reflexivity].
      destruct (N.ltb_spec b1 0xC0); cbn [andb]; [|reflexivity].
      destruct (N.leb_spec 0x80 b2); cbn [andb]; [|reflexivity].
      destruct (N.ltb_spec b2 0xC0); cbn [andb]; [|reflexivity].
      match goal with
      | |- (if ?c then _ else _) = _ => destruct c; [|reflexivity]
      end.
      apply Hopt; [cbn [length] in Hlen; lia|].
      destruct Hin as [-> | [-> | [-> | Hin]]]; [lia | lia | lia | exact Hin]. }
    destruct (N.ltb_spec b0 0xF5); [|reflexivity].
    destruct r0 as [|b1 [|b2 [|b3 r3]]]; try reflexivity. cbv zeta.
    destruct (N.leb_spec 0x80 b1); cbn [andb]; [|reflexivity].
    destruct (N.ltb_spec b1 0xC0); cbn [andb]; [|reflexivity].
    destruct (N.leb_spec 0x80 b2); cbn [andb]; [|reflexivity].
    destruct (N.ltb_spec b2 0xC0); cbn [andb]; [|reflexivity].
    destruct (N.leb_spec 0x80 b3); cbn [andb]; [|reflexivity].
    destruct (N.ltb_spec b3 0xC0); cbn [andb]; [|reflexivity].
    match goal with
    | |- (if ?c then _ else _) = _ => destruct c; [|reflexivity]
    end.
    apply Hopt; [cbn [length] in Hlen; lia|].
    destruct Hin as [-> | [-> | [-> | [-> | Hin]]]];
      [lia | lia | lia | lia | exact Hin].
Qed.

(** X8: a successful response whose body is not UTF-8 gives no result.
    When the body holds a byte from 0xF5 up (which no UTF-8 text holds),
    [execute] raises [UnicodeDecodeError]; the request was posted and the
    response consumed. *)
Theorem execute_undecodable_body
  (compress : bytes -> Z -> bytes) (self : Tio) (code language : str)
  (inputs : option str)
  (compiler_flags Cl_options arguments : option (list str))
  (p : bytes) (s : ClientSession) (r : ClientResponse)
  (rest : list ClientResponse) (b : N) :
  bytes_ (data (resolve_language self language) code inputs
               compiler_flags Cl_options arguments) = Some p ->
  pending s = r :: rest ->
  ok r = true ->
  In b (body r) -> 0xF5 <= b ->
  execute compress self code language inputs
          compiler_flags Cl_options arguments s
  = (inl UnicodeDecodeError,
     {| pending := rest;
        posted := posted s ++ [(API_URL self, post_body compress p)] |}).
Proof.
  intros Hp Hs Hok Hin Hb.
  rewrite (execute_on_response compress self code language inputs
             compiler_flags Cl_options arguments Hp s Hs).
  rewrite Hok.
  rewrite (@utf8_decode_bad_byte b Hb (length (body r)) (body r)
             (le_n _) Hin).
  reflexivity.
Qed.

Lemma execute_undecodable_body_witness :
  execute stored_compress Tio_init (lit "print(1)") (lit "python3")
          None None None None
          {| pending := [ {| ok := true; status := 200; reason := lit "OK";
                             body := lit "ab" ++ [255] ++ lit "c" |} ];
             posted := [] |}
  = (inl UnicodeDecodeError,
     {| pending := [];
        posted := [] ++ [(API_URL Tio_init,
                    post_body stored_compress
                      (lit "Vlang" ++ [0] ++ lit "1" ++ [0] ++ lit "python3"
                       ++ [0] ++ lit "F.code.tio" ++ [0] ++ lit "8" ++ [0]
                       ++ lit "print(1)" ++ [0] ++ lit "R"))] |}).
Proof.
  apply (@execute_undecodable_body stored_compress Tio_init (lit "print(1)")
           (lit "python3") None None None None
           (lit "Vlang" ++ [0] ++ lit "1" ++ [0] ++ lit "python3"
            ++ [0] ++ lit "F.code.tio" ++ [0] ++ lit "8" ++ [0]
            ++ lit "print(1)" ++ [0] ++ lit "R")
           {| pending := [ {| ok := true; status := 200; reason := lit "OK";
                              body := lit "ab" ++ [255] ++ lit "c" |} ];
              posted := [] |}
           {| ok := true; status := 200; reason := lit "OK";
              body := lit "ab" ++ [255] ++ lit "c" |}
           [] 255); try reflexivity.
  - cbn. lia.
  - lia.
Defined.

(** X9: what [[2:-4]] keeps.  The posted body is six bytes shorter than
    the compressed stream, and empty when the stream has six bytes or
    fewer; a longer stream is its first two bytes, the body and its last
    four bytes. *)
Theorem post_body_cut (compress : bytes -> Z -> bytes) (p : bytes) :
  length (post_body compress p) = (length (compress p 9%Z) - 6)%nat /\
  ((6 <= length (compress p 9%Z))%nat ->
   compress p 9%Z
   = firstn 2 (compress p 9%Z) ++ post_body compress p
     ++ skipn (length (compress p 9%Z) - 4) (compress p 9%Z)).
Proof.
  unfold post_body, slice_between.
  set (z := compress p 9%Z). split.
  - rewrite length_skipn, length_firstn. lia.
  - intros Hlen.
    rewrite <- (firstn_skipn (length z - 4) z) at 1.
    rewrite <- (firstn_skipn 2 (firstn (length z - 4) z)) at 1.
    rewrite firstn_firstn, <- app_assoc.
    now replace (Nat.min 2 (length z - 4)) with 2%nat by lia.
Qed.

Lemma post_body_cut_witness :
  length (post_body stored_compress (lit "VR")) = (13 - 6)%nat /\
  stored_compress (lit "VR") 9%Z
  = [120; 218] ++ post_body stored_compress (lit "VR")
    ++ skipn (13 - 4) (stored_compress (lit "VR") 9%Z).
Proof.
  destruct (post_body_cut stored_compress (lit "VR")) as [H1 H2].
  split; [exact H1 | apply H2; cbn; lia].
Defined.

(** X10: an optional argument that is [None] and one that is empty are
    the same request: [execute] with [None] for the input or for a list
    does exactly what it does with [''] or [[]]. *)
Theorem execute_none_is_empty
  (compress : bytes -> Z -> bytes) (self : Tio) (code language : str)
  (inputs : option str)
  (compiler_flags Cl_options arguments : option (list str))
  (s : ClientSession) :
  execute compress self code language inputs
          compiler_flags Cl_options arguments s
  = execute compress self code language (Some (text_of inputs))
            (Some (list_of compiler_flags)) (Some (list_of Cl_options))
            (Some (list_of arguments)) s.
Proof.
  assert (E : bytes_ (data (resolve_language self language) code inputs
                           compiler_flags Cl_options arguments)
              = bytes_ (data (resolve_language self language) code
                             (Some (text_of inputs))
                             (Some (list_of compiler_flags))
                             (Some (list_of Cl_options))
                             (Some (list_of arguments)))).
  { rewrite !data_items. unfold bytes_. rewrite !map2_keys_values.
    cbn [map fst snd].
    destruct inputs, compiler_flags, Cl_options, arguments; reflexivity. }
  unfold execute. now rewrite E.
Qed.



(** Before initialization, with no session given: the payload is built,
    then [AttributeError]. *)
Example execute_without_session :
  Lifecycle.execute_held stored_compress Tio_init None (lit "print(1)")
                         (lit "python3") None None None None
  = (inl (inr Lifecycle.AttributeError), None).
Proof. reflexivity. Qed.

(** X12: what a returned result guarantees.  When [execute] returns a
    [TioResponse], the request was built and posted, the response had a
    success status and a body that is UTF-8, the text of that body has no
    match of the not-found pattern, and the result holds that text and
    the resolved language. *)
Theorem execute_result_inversion
  (compress : bytes -> Z -> bytes) (self : Tio) (code language : str)
  (inputs : option str)
  (compiler_flags Cl_options arguments : option (list str))
  (s : ClientSession) (res : TioResponse) :
  fst (execute compress self code language inputs
               compiler_flags Cl_options arguments s) = inr res ->
  exists p r rest,
    bytes_ (data (resolve_language self language) code inputs
                 compiler_flags Cl_options arguments) = Some p /\
    pending s = r :: rest /\
    ok r = true /\
    utf8_decode (body r) = Some (response_text res) /\
    ~ text_matches (response_text res) /\
    response_language res = resolve_language self language.
Proof.
  intros H.
  destruct (bytes_ (data (resolve_language self language) code inputs
                         compiler_flags Cl_options arguments))
    as [p|] eqn:Hp.
  - destruct (pending s) as [|r rest] eqn:Hs.
    + unfold execute, bind, post in H. rewrite Hp, Hs in H. discriminate.
    + rewrite (execute_on_response compress self code language inputs
                 compiler_flags Cl_options arguments Hp s Hs) in H.
      exists p, r, rest.
      destruct (ok r); [|discriminate].
      destruct (utf8_decode (body r)) as [text|]; [|discriminate].
      rewrite compile_not_found in H.
      destruct (Re.search _ text) eqn:Hm; [discriminate|].
      injection H as <-. cbn [response_text response_language].
      repeat split; auto. now apply not_text_matches_search.
  - unfold execute in H. rewrite Hp in H. discriminate.
Qed.

Lemma execute_result_inversion_witness :
  exists p r rest,
    bytes_ (data (resolve_language Tio_init (lit "python3")) (lit "print(1)")
                 None None None None) = Some p /\
    pending {| pending := [ {| ok := true; status := 200;
                               reason := lit "OK";
                               body := lit "0123456789abcdef1" |} ];
               posted := [] |} = r :: rest /\
    ok r = true /\
    utf8_decode (body r) = Some (lit "0123456789abcdef1") /\
    ~ text_matches (lit "0123456789abcdef1") /\
    lit "python3" = resolve_language Tio_init (lit "python3").
Proof.
  apply (@execute_result_inversion stored_compress Tio_init (lit "print(1)")
           (lit "python3") None None None None
           {| pending := [ {| ok := true; status := 200; reason := lit "OK";
                              body := lit "0123456789abcdef1" |} ];
              posted := [] |}
           {| response_text := lit "0123456789abcdef1";
              response_language := lit "python3" |}).
  reflexivity.
Defined.

(* ================================================================== *)
(** * Construction, initialization and closing                         *)
(* ================================================================== *)

Module LifecycleFacts.
Import Lifecycle.

(** What one run of [_initialize] does, outcome by outcome. *)
Lemma initialize_run (o : TioObject) (w : Aiohttp) :
  let sid := created w in
  let o1 := {| _store_languages := _store_languages o;
               LANGUAGES_URL := LANGUAGES_URL o;
               session := Some sid;
               tio := tio o |} in
  let w1 := {| created := S sid; closed := closed w; fetched := fetched w;
               replies := replies w; scheduled := scheduled w |} in
  let log := fetched w ++ [(sid, LANGUAGES_URL o)] in
  _initialize (o, w) =
  if _store_languages o then
    match replies w with
    | [] =>
        (inl ClientConnectionError,
         (o1, {| created := S sid; closed := closed w; fetched := log;
                 replies := []; scheduled := scheduled w |}))
    | r :: rest =>
        let w2 := {| created := S sid; closed := closed w; fetched := log;
                     replies := rest; scheduled := scheduled w |} in
        if get_ok r then
          match json_keys r with
          | None => (inl JSONDecodeError, (o1, w2))
          | Some ks =>
              (inr tt,
               ({| _store_languages := _store_languages o;
                   LANGUAGES_URL := LANGUAGES_URL o;
                   session := Some sid;
                   tio := {| API_URL := API_URL (tio o);
                             languages := ks |} |}, w2))
          end
        else (inr tt, (o1, w2))
    end
  else (inr tt, (o1, w1)).
Proof.
  cbv zeta. unfold _initialize, bind, ClientSession_new, set_session,
    get_self, session_get, set_languages, ret, raise.
  cbn.
  destruct (_store_languages o); [|reflexivity].
  destruct (replies w) as [|r rest]; cbn; [reflexivity|].
  destruct (get_ok r); [|reflexivity].
  destruct (json_keys r); reflexivity.
Qed.

Lemma init_not_running given store w :
  __init__ given false store w =
  _initialize ({| _store_languages := store;
                  LANGUAGES_URL := lit "https://tio.run/languages.json";
                  session := given;
                  tio := Tio_init |}, w).
Proof. reflexivity. Qed.

(** X13: a session handed to the constructor is never used.  When the
    loop is not running, the object that [__init__] leaves holds a
    session created by [_initialize], whatever session was given; the
    GET, if one is sent, goes through the new session, and no session is
    closed. *)
Theorem init_replaces_given_session
  (given : option session_id) (store : bool) (w : Aiohttp) :
  let after := snd (__init__ given false store w) in
  session (fst after) = Some (created w) /\
  created (snd after) = S (created w) /\
  closed (snd after) = closed w /\
  fetched (snd after)
  = fetched w
    ++ (if store
        then [(created w, lit "https://tio.run/languages.json")]
        else []).
Proof.
  cbv zeta. rewrite init_not_running, initialize_run.
  cbn [_store_languages LANGUAGES_URL tio].
  destruct store; [|cbn; now rewrite app_nil_r].
  destruct (replies w) as [|r rest]; [cbn; auto|].
  destruct (get_ok r); [destruct (json_keys r)|]; cbn; auto.
Qed.

(** X14: a failed fetch is swallowed and leaves the catalog as it was.
    When the catalog is not stored, or the service answers the GET with a
    status that is not a success, [_initialize] raises nothing and the
    catalog is unchanged; after [__init__] it is empty, and every
    language identifier is requested as given. *)
Theorem failed_fetch_keeps_catalog
  (o : TioObject) (w : Aiohttp) (r : LanguagesResponse)
  (rest : list LanguagesResponse) :
  _store_languages o = false \/
  (replies w = r :: rest /\ get_ok r = false) ->
  fst (_initialize (o, w)) = inr tt /\
  languages (tio (fst (snd (_initialize (o, w))))) = languages (tio o) /\
  (languages (tio o) = [] ->
   forall l, resolve_language (tio (fst (snd (_initialize (o, w))))) l = l).
Proof.
  intros H. rewrite initialize_run. cbv zeta.
  assert (Hpass : forall t : Tio, languages t = [] ->
                                  forall l, resolve_language t l = l).
  { intros t Ht l. unfold resolve_language. now rewrite Ht. }
  destruct H as [-> | (-> & Hok)].
  - cbn. auto.
  - destruct (_store_languages o); [rewrite Hok|]; cbn; auto.
Qed.

Lemma failed_fetch_keeps_catalog_witness :
  fst (__init__ None false true
         {| created := 0; closed := []; fetched := [];
            replies := [ {| get_ok := false; json_keys := None |} ];
            scheduled := 0 |}) = inr tt /\
  resolve_language
    (tio (fst (snd (__init__ None false true
                      {| created := 0; closed := []; fetched := [];
                         replies := [ {| get_ok := false;
                                         json_keys := None |} ];
                         scheduled := 0 |}))))
    (lit "pyth") = lit "pyth".
Proof.
  destruct (@failed_fetch_keeps_catalog
              {| _store_languages := true;
                 LANGUAGES_URL := lit "https://tio.run/languages.json";
                 session := None;
                 tio := Tio_init |}
              {| created := 0; closed := []; fetched := [];
                 replies := [ {| get_ok := false; json_keys := None |} ];
                 scheduled := 0 |}
              {| get_ok := false; json_keys := None |} [])
    as (H1 & _ & H3).
  - right. split; reflexivity.
  - split; [exact H1 | apply H3; reflexivity].
Defined.

(** X15: a successful fetch replaces the catalog by the keys of the
    answer.  When the catalog is stored and the service answers the GET
    with a success whose JSON object has the keys [ks], the catalog
    after [_initialize] is [ks] in that order, whatever it was before,
    and every key is requested as it is. *)
Theorem fetched_catalog_is_keys
  (o : TioObject) (w : Aiohttp) (r : LanguagesResponse)
  (rest : list LanguagesResponse) (ks : list str) :
  _store_languages o = true ->
  replies w = r :: rest -> get_ok r = true -> json_keys r = Some ks ->
  fst (_initialize (o, w)) = inr tt /\
  languages (tio (fst (snd (_initialize (o, w))))) = ks /\
  forall k, In k ks ->
            resolve_language (tio (fst (snd (_initialize (o, w))))) k = k.
Proof.
  intros Hs Hr Hok Hk. rewrite initialize_run. cbv zeta.
  rewrite Hs, Hr, Hok, Hk. cbn [fst snd tio languages].
  split; [reflexivity | split; [reflexivity|]].
  intros k Hin. unfold resolve_language. cbn [languages].
  apply list_contains_In in Hin. now rewrite Hin.
Qed.

Lemma fetched_catalog_is_keys_witness :
  fst (__init__ None false true
         {| created := 0; closed := []; fetched := [];
            replies := [ {| get_ok := true;
                            json_keys := Some [lit "python3"; lit "py"] |} ];
            scheduled := 0 |}) = inr tt /\
  languages
    (tio (fst (snd (__init__ None false true
                      {| created := 0; closed := []; fetched := [];
                         replies := [ {| get_ok := true;
                                         json_keys :=
                                           Some [lit "python3"; lit "py"] |} ];
                         scheduled := 0 |}))))
  = [lit "python3"; lit "py"] /\
  resolve_language
    (tio (fst (snd (__init__ None false true
                      {| created := 0; closed := []; fetched := [];
                         replies := [ {| get_ok := true;
                                         json_keys :=
                                           Some [lit "python3"; lit "py"] |} ];
                         scheduled := 0 |}))))
    (lit "py") = lit "py".
Proof.
  destruct (@fetched_catalog_is_keys
              {| _store_languages := true;
                 LANGUAGES_URL := lit "https://tio.run/languages.json";
                 session := None;
                 tio := Tio_init |}
              {| created := 0; closed := []; fetched := [];
                 replies := [ {| get_ok := true;
                                 json_keys :=
                                   Some [lit "python3"; lit "py"] |} ];
                 scheduled := 0 |}
              {| get_ok := true;
                 json_keys := Some [lit "python3"; lit "py"] |}
              [] [lit "python3"; lit "py"]
              eq_refl eq_refl eq_refl eq_refl) as (H1 & H2 & H3).
  split; [exact H1 | split; [exact H2|]].
  apply H3. right. now left.
Defined.

(** X16: only a status that is not a success is swallowed.  When the
    catalog is stored and the GET gets no response, or gets a success
    whose body [r.json()] cannot read, the exception comes out of
    [_initialize], and so out of [__init__] when the loop is not running;
    the new session is already installed and stays open. *)
Theorem initialize_errors_propagate
  (o : TioObject) (w : Aiohttp) :
  _store_languages o = true ->
  (replies w = [] ->
   fst (_initialize (o, w)) = inl ClientConnectionError) /\
  (forall r rest,
     replies w = r :: rest -> get_ok r = true -> json_keys r = None ->
     fst (_initialize (o, w)) = inl JSONDecodeError) /\
  session (fst (snd (_initialize (o, w)))) = Some (created w) /\
  closed (snd (snd (_initialize (o, w)))) = closed w.
Proof.
  intros Hs. rewrite initialize_run. cbv zeta. rewrite Hs.
  repeat split.
  - now intros ->.
  - intros r rest -> -> ->. reflexivity.
  - destruct (replies w) as [|r rest]; [reflexivity|].
    destruct (get_ok r); [destruct (json_keys r)|]; reflexivity.
  - destruct (replies w) as [|r rest]; [reflexivity|].
    destruct (get_ok r); [destruct (json_keys r)|]; reflexivity.
Qed.

Lemma initialize_errors_propagate_witness :
  fst (__init__ None false true
         {| created := 3; closed := []; fetched := [];
            replies := [ {| get_ok := true; json_keys := None |} ];
            scheduled := 0 |}) = inl JSONDecodeError /\
  session
    (fst (snd (__init__ None false true
                 {| created := 3; closed := []; fetched := [];
                    replies := [ {| get_ok := true; json_keys := None |} ];
                    scheduled := 0 |}))) = Some 3%nat.
Proof.
  destruct (@initialize_errors_propagate
              {| _store_languages := true;
                 LANGUAGES_URL := lit "https://tio.run/languages.json";
                 session := None;
                 tio := Tio_init |}
              {| created := 3; closed := []; fetched := [];
                 replies := [ {| get_ok := true; json_keys := None |} ];
                 scheduled := 0 |} eq_refl) as (_ & H2 & H3 & _).
  split; [|exact H3].
  apply (H2 {| get_ok := true; json_keys := None |} []); reflexivity.
Defined.

(** The session, the count of sessions and the closed sessions after a
    run of [_initialize], whatever its outcome. *)
Lemma initialize_sessions (o : TioObject) (w : Aiohttp) :
  session (fst (snd (_initialize (o, w)))) = Some (created w) /\
  created (snd (snd (_initialize (o, w)))) = S (created w) /\
  closed (snd (snd (_initialize (o, w)))) = closed w.
Proof.
  rewrite initialize_run. cbv zeta.
  destruct (_store_languages o); [|cbn; auto].
  destruct (replies w) as [|r rest]; [cbn; auto|].
  destruct (get_ok r); [destruct (json_keys r)|]; cbn; auto.
Qed.

Lemma async_with_sessions {A} (body : M A) (s : TioObject * Aiohttp) :
  (forall s0,
     session (fst (snd (body s0))) = session (fst s0) /\
     created (snd (snd (body s0))) = created (snd s0) /\
     closed (snd (snd (body s0))) = closed (snd s0)) ->
  fst (__aenter__ s) = inr tt ->
  created (snd (snd (async_with body s))) = S (created (snd s)) /\
  closed (snd (snd (async_with body s)))
  = closed (snd s) ++ [created (snd s)].
Proof.
  intros Hbody Henter. destruct s as [o w].
  destruct (initialize_sessions o w) as (Hs & Hc & Hcl).
  unfold async_with, bind. unfold __aenter__ in *.
  destruct (_initialize (o, w)) as [[e|[]] s1]; [discriminate|].
  cbn [fst snd] in *.
  destruct (Hbody s1) as (Bs & Bc & Bcl).
  assert (Hexit : __aexit__ (snd (body s1))
                  = (inr tt,
                     (fst (snd (body s1)),
                      {| created := created (snd (snd (body s1)));
                         closed := closed (snd (snd (body s1)))
                                   ++ [created w];
                         fetched := fetched (snd (snd (body s1)));
                         replies := replies (snd (snd (body s1)));
                         scheduled := scheduled (snd (snd (body s1))) |}))).
  { unfold __aexit__, close, bind, get_self. cbn [fst snd].
    now rewrite Bs, Hs. }
  destruct (body s1) as [[e|a] s2]; cbn [fst snd] in *; rewrite Hexit;
    cbn [fst snd created closed]; rewrite Bc, Bcl, Hc, Hcl; auto.
Qed.

(** X17: [async with] closes the session it made and no other.  For
    an object that [__init__] built with the loop not running, entering,
    running a body that touches no session, and leaving creates a second
    session and closes that one, also when the body raises; the session
    that [__init__] created is left open. *)
Theorem async_with_leaves_first_session_open
  {A} (body : M A) (given : option session_id) (store : bool)
  (w : Aiohttp) :
  (forall s0,
     session (fst (snd (body s0))) = session (fst s0) /\
     created (snd (snd (body s0))) = created (snd s0) /\
     closed (snd (snd (body s0))) = closed (snd s0)) ->
  fst (__aenter__ (snd (__init__ given false store w))) = inr tt ->
  let after := snd (async_with body (snd (__init__ given false store w))) in
  session (fst (snd (__init__ given false store w))) = Some (created w) /\
  created (snd after) = S (S (created w)) /\
  closed (snd after) = closed w ++ [S (created w)].
Proof.
  intros Hbody Henter after.
  destruct (async_with_sessions body _ Hbody Henter) as (Hc & Hcl).
  rewrite init_not_running in *.
  destruct (initialize_sessions
              {| _store_languages := store;
                 LANGUAGES_URL := lit "https://tio.run/languages.json";
                 session := given; tio := Tio_init |} w) as (Is & Ic & Icl).
  unfold after. rewrite init_not_running, Hc, Hcl, Ic, Icl. auto.
Qed.

Lemma async_with_leaves_first_session_open_witness :
  session (fst (snd (__init__ None false false
                       {| created := 0; closed := []; fetched := [];
                          replies := []; scheduled := 0 |})))
  = Some 0%nat /\
  created (snd (snd (async_with (raise AttributeError : M unit)
                       (snd (__init__ None false false
                               {| created := 0; closed := []; fetched := [];
                                  replies := []; scheduled := 0 |})))))
  = 2%nat /\
  closed (snd (snd (async_with (raise AttributeError : M unit)
                      (snd (__init__ None false false
                              {| created := 0; closed := []; fetched := [];
                                 replies := []; scheduled := 0 |})))))
  = [] ++ [1%nat].
Proof.
  apply (@async_with_leaves_first_session_open unit
           (raise AttributeError) None false
           {| created := 0; closed := []; fetched := [];
              replies := []; scheduled := 0 |}).
  - intros s0. repeat split.
  - reflexivity.
Defined.

(** X18: in a running loop the constructor only schedules the
    initialization.  Until that task runs no session is created and no
    request is sent, the object holds the session it was given and an
    empty catalog; if no session was given, [close] raises
    [AttributeError] and changes nothing. *)
Theorem init_in_running_loop_defers
  (given : option session_id) (store : bool) (w : Aiohttp) :
  let made := __init__ given true store w in
  fst made = inr tt /\
  session (fst (snd made)) = given /\
  languages (tio (fst (snd made))) = [] /\
  created (snd (snd made)) = created w /\
  fetched (snd (snd made)) = fetched w /\
  scheduled (snd (snd made)) = S (scheduled w) /\
  (given = None -> close (snd made) = (inl AttributeError, snd made)) /\
  (forall sid, given = Some sid ->
     closed (snd (snd (close (snd made)))) = closed w ++ [sid]).
Proof.
  cbv zeta. repeat split.
  - intros ->. reflexivity.
  - intros sid ->. reflexivity.
Qed.

Lemma init_in_running_loop_defers_witness :
  close (snd (__init__ None true true
                {| created := 0; closed := []; fetched := [];
                   replies := []; scheduled := 0 |}))
  = (inl AttributeError,
     snd (__init__ None true true
            {| created := 0; closed := []; fetched := [];
               replies := []; scheduled := 0 |})).
Proof.
  destruct (init_in_running_loop_defers None true
              {| created := 0; closed := []; fetched := [];
                 replies := []; scheduled := 0 |})
    as (_ & _ & _ & _ & _ & _ & H & _).
  now apply H.
Defined.

End LifecycleFacts.
